(** * The Sudoku puzzle state engine (class [SudokuGame])

    A shallow embedding of the game class: the board, the given mask
    ([initialBoard]), the solution, the per-cell note sets, the selection
    and the two settings, with the methods that read and change them.

    JavaScript values are typed as the program uses them:
    - a board or solution cell is a string (['1'] .. ['9'], or ['.'] for an
      empty cell); [board] and [solution] are arrays of such strings,
      [initialBoard] is one string whose characters are the cells;
    - [notes] is an object used as a map from cell index to a [Set] of
      strings: a [gmap nat (gset string)];
    - reading an array or a string out of range gives [undefined]: [None];
    - [selectedCell] is a number, or [null] (or, loaded from a snapshot
      without the field, [undefined]; no method tells the two apart in what
      it does to the game): [option nat].

    The page (DOM nodes, messages, fireworks) is left out, except for the
    set of cells that [highlightRelatedCells] marks, which is returned. *)

From Stdlib Require Import Ascii String List Arith Lia.
From stdpp Require Import base option list gmap strings.

(** ** Symbols *)

(** The empty marker of a board cell. *)
Definition EMPTY : string := ".".

(** The erase button sends the empty text as its number. *)
Definition ERASE : string := EmptyString.

Definition str1 (c : ascii) : string := String c EmptyString.

(** [s[i]] on a string: the one-character string at [i], or undefined. *)
Definition charAt (s : string) (i : nat) : option string :=
  str1 <$> String.get i s.

(** [s.split('')]. *)
Definition split (s : string) : list string :=
  str1 <$> list_ascii_of_string s.

(** [s.replace(/-/g, '.')]. *)
Fixpoint replaceDashes (s : string) : string :=
  match s with
  | EmptyString => EmptyString
  | String c r =>
      String (if Ascii.eqb c "-"%char then "."%char else c) (replaceDashes r)
  end.

(** ** Game state *)

Record GameState := mkGame {
  board : list string;
  solution : list string;
  initialBoard : string;
  selectedCell : option nat;
  difficulty : string;
  noteMode : bool;
  notes : gmap nat (gset string)
}.

Definition setBoard (b : list string) (g : GameState) : GameState :=
  mkGame b (solution g) (initialBoard g) (selectedCell g) (difficulty g)
         (noteMode g) (notes g).

Definition setNotes (n : gmap nat (gset string)) (g : GameState) : GameState :=
  mkGame (board g) (solution g) (initialBoard g) (selectedCell g)
         (difficulty g) (noteMode g) n.

Definition setSelectedCell (s : option nat) (g : GameState) : GameState :=
  mkGame (board g) (solution g) (initialBoard g) s (difficulty g)
         (noteMode g) (notes g).

(** The two settings are written by the page's change handlers. *)
Definition setNoteMode (m : bool) (g : GameState) : GameState :=
  mkGame (board g) (solution g) (initialBoard g) (selectedCell g)
         (difficulty g) m (notes g).

Definition setDifficulty (d : string) (g : GameState) : GameState :=
  mkGame (board g) (solution g) (initialBoard g) (selectedCell g) d
         (noteMode g) (notes g).

(** [this.initialBoard[i] !== '.']: the cell is a given. Out of range the
    read is undefined, which is not ['.'] either. *)
Definition isGiven (g : GameState) (i : nat) : bool :=
  bool_decide (charAt (initialBoard g) i ≠ Some EMPTY).

(** ** Rows, columns and boxes *)

Definition rowOf (i : nat) : nat := i / 9.
Definition colOf (i : nat) : nat := i mod 9.
Definition boxRowOf (i : nat) : nat := rowOf i / 3 * 3.
Definition boxColOf (i : nat) : nat := colOf i / 3 * 3.

(** The test shared by [hasConstraintViolation], [highlightRelatedCells]
    and [eliminateNotesInRelatedCells]: cell [i] is in the row, the column
    or the box of cell [c]. *)
Definition related (c i : nat) : bool :=
  (rowOf i =? rowOf c) || (colOf i =? colOf c)
  || ((boxRowOf i =? boxRowOf c) && (boxColOf i =? boxColOf c)).

(** The indices [0 .. 80] that the loops and the 81 page cells run over. *)
Definition cells : list nat := seq 0 81.

(** A peer of [c]: another cell of the grid related to it. *)
Definition peer (c i : nat) : Prop :=
  i < 81 ∧ i ≠ c ∧ related c i = true.

(** ** Persistence *)

(** A note value of a stored snapshot: an array of digits (what [saveGame]
    writes), one string (the legacy format), or anything else. *)
Inductive NoteValue :=
| NoteList (l : list string)
| NoteString (s : string)
| NoteOther.

(** The object [JSON.parse] returns; [None] is a field that is absent (or
    null). *)
Record Snapshot := mkSnapshot {
  s_board : option (list string);
  s_solution : option (list string);
  s_initialBoard : option string;
  s_notes : option (gmap nat NoteValue);
  s_difficulty : option string;
  s_selectedCell : option nat;
  s_noteMode : option bool
}.

(** What is stored under the key ['sudokuGameState']. The store keeps text;
    the model keeps what [JSON.parse] makes of that text: an exception
    ([NotJSON]; the empty text, which [loadGame] refuses before parsing, is
    one of these), or the object that [JSON.stringify] had been given. *)
Inductive StoredText :=
| NotJSON
| JSONObject (snap : Snapshot).

(** [localStorage.getItem] gives [None] when nothing is stored. *)
Definition Storage := option StoredText.

(** [notesForStorage]: every value of [notes] is a [Set], and is stored as
    the array of its members. *)
Definition saveNotes (n : gmap nat (gset string)) : gmap nat NoteValue :=
  (λ X, NoteList (elements X)) <$> n.

Definition saveGame (g : GameState) : StoredText :=
  JSONObject
    {| s_board := Some (board g);
       s_solution := Some (solution g);
       s_initialBoard := Some (initialBoard g);
       s_notes := Some (saveNotes (notes g));
       s_difficulty := Some (difficulty g);
       s_selectedCell := selectedCell g;
       s_noteMode := Some (noteMode g) |}.

Definition validDifficulties : list string :=
  ["easy"; "medium"; "hard"; "expert"].

(** One entry of the stored notes: an array and a string are taken, any
    other value is skipped. *)
Definition loadNote (v : NoteValue) : option (gset string) :=
  match v with
  | NoteList l => Some (list_to_set l)
  | NoteString s => Some {[ s ]}
  | NoteOther => None
  end.

Definition loadNotes (n : option (gmap nat NoteValue)) : gmap nat (gset string) :=
  match n with
  | Some m => omap loadNote m
  | None => ∅
  end.

Definition loadDifficulty (d : option string) : string :=
  match d with
  | Some s => if bool_decide (s ∈ validDifficulties) then s else "medium"
  | None => "medium"
  end.

(** [!x] on a string field: absent and the empty string are falsy. An
    array, when present, is truthy. *)
Definition truthyString (x : option string) : bool :=
  match x with
  | Some s => negb (bool_decide (s = EmptyString))
  | None => false
  end.

(** [loadGame]: [None] is the method's [false], [Some g] is [true] with the
    fields of [this] as it leaves them (all seven are assigned). *)
Definition loadGame (item : Storage) : option GameState :=
  match item with
  | None => None
  | Some NotJSON => None
  | Some (JSONObject gs) =>
      match s_board gs, s_solution gs with
      | Some b, Some sol =>
          if truthyString (s_initialBoard gs) then
            Some {| board := b;
                    solution := sol;
                    initialBoard := default EmptyString (s_initialBoard gs);
                    notes := loadNotes (s_notes gs);
                    difficulty := loadDifficulty (s_difficulty gs);
                    selectedCell := s_selectedCell gs;
                    noteMode := default false (s_noteMode gs) |}
          else None
      | _, _ => None
      end
  end.

(** [startNewGame], given what [getSudoku(this.difficulty)] returned. The
    selection and the settings stay as they were. *)
Definition newGame (puzzle sol : string)
    (sel : option nat) (d : string) (m : bool) : GameState :=
  {| board := split (replaceDashes puzzle);
     solution := split sol;
     initialBoard := replaceDashes puzzle;
     selectedCell := sel;
     difficulty := d;
     noteMode := m;
     notes := ∅ |}.

Definition startNewGame (puzzle sol : string) (g : GameState) : GameState :=
  newGame puzzle sol (selectedCell g) (difficulty g) (noteMode g).

(** The constructor: a stored game that loads is resumed, otherwise a new
    game is started with the fields' initial values ([null], ['medium'],
    [false]). (The wait for the generator script to arrive is left out.) *)
Definition construct (item : Storage) (puzzle sol : string) : GameState :=
  match loadGame item with
  | Some g => g
  | None => newGame puzzle sol None "medium" false
  end.

(** ** Queries *)

(** [hasConstraintViolation]: the loop returns at the first related cell,
    other than [cellIndex], that holds the same value. *)
Definition hasConstraintViolation (g : GameState) (cellIndex : nat) : bool :=
  let value := board g !! cellIndex in
  if bool_decide (value = Some EMPTY) then false
  else
    existsb
      (λ i, negb (i =? cellIndex) && related cellIndex i
            && bool_decide (board g !! i = value))
      cells.

(** [highlightRelatedCells]: the page cells that get the class
    ['highlighted']. *)
Definition highlightRelatedCells (g : GameState) (index : nat) : list nat :=
  let currentValue := board g !! index in
  List.filter
    (λ i, negb (i =? index)
          && (related index i
              || (negb (bool_decide (currentValue = Some EMPTY))
                  && bool_decide (board g !! i = currentValue))))
    cells.

(** [selectCell]: every highlight is removed first, so the cells highlighted
    afterwards are those of [highlightRelatedCells]. *)
Definition selectCell (index : nat) (g : GameState) : GameState * list nat :=
  let g' := setSelectedCell (Some index) g in
  (g', highlightRelatedCells g' index).

(** [!this.board.includes('.')]. *)
Definition isComplete (g : GameState) : bool :=
  negb (bool_decide (EMPTY ∈ board g)).

(** [a.every((value, index) => f(value, index))], from index [i] on. *)
Fixpoint every {A : Type} (f : A → nat → bool) (a : list A) (i : nat) : bool :=
  match a with
  | [] => true
  | value :: rest => f value i && every f rest (S i)
  end.

(** [checkWin]: the value of [isCorrect], which picks the branch. *)
Definition checkWin (g : GameState) : bool :=
  every (λ value index, bool_decide (Some value = solution g !! index))
        (board g) 0.

(** What a move reports once it is done: [checkWin] runs on a board with no
    empty cell only. *)
Inductive Report := NoReport | Solved | CompleteButWrong.

Definition winReport (g : GameState) : Report :=
  if isComplete g then (if checkWin g then Solved else CompleteButWrong)
  else NoReport.

(** ** Moves *)

(** One round of the loop of [eliminateNotesInRelatedCells]. *)
Definition eliminateAt (cellIndex : nat) (number : string) (i : nat)
    (n : gmap nat (gset string)) : gmap nat (gset string) :=
  if i =? cellIndex then n
  else if related cellIndex i then
    match n !! i with
    | Some X =>
        if bool_decide (number ∈ X) then
          let X' := X ∖ {[ number ]} in
          if size X' =? 0 then delete i n else <[ i := X' ]> n
        else n
    | None => n
    end
  else n.

Definition eliminateNotesInRelatedCells (cellIndex : nat) (number : string)
    (n : gmap nat (gset string)) : gmap nat (gset string) :=
  foldl (λ acc i, eliminateAt cellIndex number i acc) n cells.

(** The note-mode branch of [placeNumber] for a digit: toggle it. *)
Definition toggleNote (sel : nat) (number : string)
    (n : gmap nat (gset string)) : gmap nat (gset string) :=
  let n1 := match n !! sel with
            | Some _ => n
            | None => <[ sel := ∅ ]> n
            end in
  let X := default ∅ (n1 !! sel) in
  if bool_decide (number ∈ X) then
    let X' := X ∖ {[ number ]} in
    if size X' =? 0 then delete sel n1 else <[ sel := X' ]> n1
  else <[ sel := X ∪ {[ number ]} ]> n1.

(** [placeNumber]. The write [board[sel] = v] is in range whenever it is
    reached on a board as long as [initialBoard], since the guard before it
    has read ['.'] at [sel]. (JavaScript would grow a shorter array; such a
    board never arises, see [reachable_wellFormed].) *)
Definition placeNumber (number : string) (g : GameState) : GameState :=
  match selectedCell g with
  | None => g
  | Some sel =>
      if isGiven g sel then g
      else if noteMode g then
        if bool_decide (number = ERASE) then
          setBoard (<[ sel := EMPTY ]> (board g))
            (setNotes (delete sel (notes g)) g)
        else
          setBoard (<[ sel := EMPTY ]> (board g))
            (setNotes (toggleNote sel number (notes g)) g)
      else
        let g1 := setNotes (delete sel (notes g)) g in
        let g2 :=
          setBoard
            (<[ sel := if bool_decide (number = ERASE) then EMPTY else number ]>
               (board g1)) g1 in
        if bool_decide (number = ERASE) then g2
        else setNotes (eliminateNotesInRelatedCells sel number (notes g2)) g2
  end.

Definition placeNumberReport (number : string) (g : GameState) : Report :=
  match selectedCell g with
  | None => NoReport
  | Some sel =>
      if isGiven g sel then NoReport
      else if noteMode g then NoReport
      else winReport (placeNumber number g)
  end.

(** The cells [showHint] chooses among. *)
Definition emptyCells (g : GameState) : list nat :=
  List.filter
    (λ index, bool_decide (board g !! index = Some EMPTY)
              && negb (isGiven g index))
    (seq 0 (length (board g))).

(** [showHint]; [pick] stands for the random draw, reduced to a position of
    [emptyCells]. The hint is [solution[randomIndex]]; a solution shorter
    than the board, where that read is undefined, never arises and leaves
    the state as it is here. *)
Definition showHint (pick : nat) (g : GameState) : GameState :=
  let candidates := emptyCells g in
  if length candidates =? 0 then g
  else
    match candidates !! (pick mod length candidates) with
    | None => g
    | Some randomIndex =>
        match solution g !! randomIndex with
        | None => g
        | Some hintNumber =>
            let g1 := setBoard (<[ randomIndex := hintNumber ]> (board g)) g in
            let g2 := setNotes (delete randomIndex (notes g1)) g1 in
            let g3 :=
              setNotes
                (eliminateNotesInRelatedCells randomIndex hintNumber (notes g2))
                g2 in
            (selectCell randomIndex g3).1
        end
    end.

(** ** Well-formed and reachable states *)

Definition isDigit (c : ascii) : bool :=
  existsb (Ascii.eqb c) (list_ascii_of_string "123456789").

Definition isPuzzleChar (c : ascii) : bool :=
  isDigit c || Ascii.eqb c "-"%char.

(** What the generator promises: a puzzle of 81 digits or blanks and a
    solution of 81 digits. *)
Definition generated (puzzle sol : string) : bool :=
  (String.length puzzle =? 81) && (String.length sol =? 81)
  && forallb isPuzzleChar (list_ascii_of_string puzzle)
  && forallb isDigit (list_ascii_of_string sol).

(** The shape the data model gives a game. *)
Record wellFormed (g : GameState) : Prop := {
  wf_board : length (board g) = 81;
  wf_solution : length (solution g) = 81;
  wf_initialBoard : String.length (initialBoard g) = 81;
  wf_solved : EMPTY ∉ solution g;
  wf_difficulty : difficulty g ∈ validDifficulties
}.

(** Every given still shows its initial value. *)
Definition givensKept (g : GameState) : Prop :=
  ∀ i v, charAt (initialBoard g) i = Some v → v ≠ EMPTY →
         board g !! i = Some v.

(** A cell with a note set has no value, and the set is not empty. *)
Definition notesExclusive (g : GameState) : Prop :=
  ∀ i X, notes g !! i = Some X → board g !! i = Some EMPTY ∧ X ≠ ∅.

(** The states a game goes through: a new game from the generator, then
    selections, number-pad input, hints, the two settings, further new
    games, and resuming from what [saveGame] stored. *)
Inductive reachable : GameState → Prop :=
| reach_first puzzle sol sel d m :
    generated puzzle sol = true → d ∈ validDifficulties →
    reachable (newGame puzzle sol sel d m)
| reach_new puzzle sol g :
    generated puzzle sol = true → reachable g →
    reachable (startNewGame puzzle sol g)
| reach_select index g :
    index < 81 → reachable g → reachable (selectCell index g).1
| reach_place number g :
    reachable g → reachable (placeNumber number g)
| reach_hint pick g :
    reachable g → reachable (showHint pick g)
| reach_noteMode m g :
    reachable g → reachable (setNoteMode m g)
| reach_difficulty d g :
    d ∈ validDifficulties → reachable g → reachable (setDifficulty d g)
| reach_resume g g' :
    reachable g → loadGame (Some (saveGame g)) = Some g' → reachable g'.

(** ** Validation *)

(** The class [validateBoard] gives a page cell: none, ['correct'] or
    ['error']. *)
Inductive Mark := Unmarked | Correct | Incorrect.

Definition validateCell (g : GameState) (index : nat) : Mark :=
  if bool_decide (board g !! index ≠ Some EMPTY) && negb (isGiven g index)
  then
    if bool_decide (board g !! index = solution g !! index) then Correct
    else Incorrect
  else Unmarked.

(** [hasErrors], which picks the message of [validateBoard]. *)
Definition hasErrors (g : GameState) : bool :=
  existsb
    (λ index, match validateCell g index with
              | Incorrect => true
              | _ => false
              end)
    cells.

Definition validateBoard (g : GameState) : list Mark * bool :=
  (validateCell g <$> cells, hasErrors g).

(** ** The number pad *)

(** [String(i)] for the [i] of the loops from 1 to 9. *)
Definition digitString (i : nat) : string := str1 (ascii_of_nat (48 + i)).

(** [numberCounts] as the first loop of [updateNumberButtonStates] leaves
    it: 0 for each of '1' .. '9'. The object is read as a map of its own
    entries; that is what JavaScript does for the one-character names the
    number buttons carry (longer names such as 'constructor' are inherited
    by every object). *)
Definition initialCounts : gmap string nat :=
  foldl (λ acc i, <[ digitString i := 0 ]> acc) ∅ (seq 1 9).

Definition countValue (acc : gmap string nat) (value : string) :
    gmap string nat :=
  if bool_decide (value ≠ EMPTY)
  then <[ value := default 0 (acc !! value) + 1 ]> acc
  else acc.

Definition numberCounts (g : GameState) : gmap string nat :=
  foldl countValue initialCounts (board g).

(** Whether the button of [number] gets the class ['completed'] ([Some
    true]) or loses it ([Some false]); the erase button is left as it is
    ([None]). *)
Definition buttonState (g : GameState) (number : string) : option bool :=
  if bool_decide (number = ERASE) then None
  else Some (match numberCounts g !! number with
             | Some n => 9 <=? n
             | None => false
             end).

(** ** Rendering *)

(** [renderNotesGrid]: nine note cells, the one of [i] showing [i] when the
    set has [String(i)]. *)
Definition renderNotesGrid (X : gset string) : list (option nat) :=
  (λ i, if bool_decide (digitString i ∈ X) then Some i else None)
    <$> seq 1 9.

(** What [renderBoard] makes of one page cell: its class and content. *)
Inductive CellView :=
| GivenCell (text : option string)
| NoteCell (grid : list (option nat))
| UserCell (text : option string) (error : bool)
| BlankCell.

Definition hasNotes (g : GameState) (index : nat) : bool :=
  match notes g !! index with
  | Some X => 0 <? size X
  | None => false
  end.

Definition renderCell (g : GameState) (index : nat) : CellView :=
  let value := board g !! index in
  if isGiven g index then GivenCell value
  else if hasNotes g index then
    NoteCell (renderNotesGrid (default ∅ (notes g !! index)))
  else if bool_decide (value ≠ Some EMPTY) then
    UserCell value (hasConstraintViolation g index)
  else BlankCell.

(** [renderBoard]: the 81 cells, and the highlights of the selected cell. *)
Definition renderBoard (g : GameState) : list CellView * list nat :=
  (renderCell g <$> cells,
   match selectedCell g with
   | Some index => highlightRelatedCells g index
   | None => []
   end).

(** ** The game and its store

    The methods as the page calls them, with the store they write. *)

Record App := mkApp {
  game : GameState;
  store : Storage
}.

(** [this.saveGame()]. *)
Definition appSave (g : GameState) : App := mkApp g (Some (saveGame g)).

(** [checkWin] with its effect on the store: a win calls
    [clearSavedGame]. *)
Definition appCheckWin (a : App) : App :=
  if checkWin (game a) then mkApp (game a) None else a.

(** The end of [placeNumber] and of [showHint]: save, then check for a win
    when asked to and the board has no empty cell. *)
Definition finishMove (g : GameState) (check : bool) : App :=
  if check && isComplete g then appCheckWin (appSave g) else appSave g.

Definition appSelectCell (index : nat) (a : App) : App :=
  appSave (selectCell index (game a)).1.

(** [placeNumber]: the two early returns save nothing. *)
Definition appPlaceNumber (number : string) (a : App) : App :=
  match selectedCell (game a) with
  | None => a
  | Some sel =>
      if isGiven (game a) sel then a
      else finishMove (placeNumber number (game a)) (negb (noteMode (game a)))
  end.

(** [showHint]: without a cell to hint it returns before saving. *)
Definition appShowHint (pick : nat) (a : App) : App :=
  if length (emptyCells (game a)) =? 0 then a
  else finishMove (showHint pick (game a)) true.

Definition appStartNewGame (puzzle sol : string) (a : App) : App :=
  appSave (startNewGame puzzle sol (game a)).

(** The change handler of the note-mode toggle. *)
Definition appSetNoteMode (m : bool) (a : App) : App :=
  appSave (setNoteMode m (game a)).

(** The change handler of the difficulty select: it assigns the field and
    then calls [this.updateDifficultyDisplay()], a method the class does
    not have, so the handler ends there and its [saveGame] is not
    reached. *)
Definition appSetDifficulty (d : string) (a : App) : App :=
  mkApp (setDifficulty d (game a)) (store a).

(** The constructor on a page whose store holds [item]. *)
Definition appConstruct (item : Storage) (puzzle sol : string) : App :=
  match loadGame item with
  | Some g => mkApp g item
  | None => appSave (newGame puzzle sol None "medium" false)
  end.

(** Reloading the page: a new object is built from the store as it is. *)
Definition appReload (puzzle sol : string) (a : App) : App :=
  appConstruct (store a) puzzle sol.

(** The page states a session goes through, from a first visit with an
    empty store. *)
Inductive appReachable : App → Prop :=
| app_first puzzle sol :
    generated puzzle sol = true →
    appReachable (appConstruct None puzzle sol)
| app_reload puzzle sol a :
    generated puzzle sol = true → appReachable a →
    appReachable (appReload puzzle sol a)
| app_new puzzle sol a :
    generated puzzle sol = true → appReachable a →
    appReachable (appStartNewGame puzzle sol a)
| app_select index a :
    index < 81 → appReachable a → appReachable (appSelectCell index a)
| app_place number a :
    appReachable a → appReachable (appPlaceNumber number a)
| app_hint pick a :
    appReachable a → appReachable (appShowHint pick a)
| app_noteMode m a :
    appReachable a → appReachable (appSetNoteMode m a)
| app_difficulty d a :
    d ∈ validDifficulties → appReachable a →
    appReachable (appSetDifficulty d a).

(** Repeated hints on the page. *)
Definition appShowHints (picks : list nat) (a : App) : App :=
  foldl (λ acc pick, appShowHint pick acc) a picks.

(** The store is empty, or holds the game as it is up to its difficulty. *)
Definition storeTracks (a : App) : Prop :=
  store a = None
  ∨ ∃ d, d ∈ validDifficulties
         ∧ loadGame (store a) = Some (setDifficulty d (game a)).

(** The cells of the board that hold the value [d]. *)
Definition holders (g : GameState) (d : string) : list nat :=
  List.filter (λ i, bool_decide (board g !! i = Some d))
    (seq 0 (length (board g))).

(** The solution agrees with the puzzle on the givens. *)
Definition solutionFits (g : GameState) : Prop :=
  ∀ i v, charAt (initialBoard g) i = Some v → v ≠ EMPTY →
         solution g !! i = Some v.

(** Repeated hints, one draw each. *)
Definition showHints (picks : list nat) (g : GameState) : GameState :=
  foldl (λ acc pick, showHint pick acc) g picks.

(** ** The earlier revision

    [src/game.js] holds an earlier revision of the same class: no store, no
    constraint check, no note elimination, one note string per cell
    instead of a set of digits, and a [selectCell] that refuses givens. Its
    two methods that differ are embedded here for comparison; the
    properties in this file are about the revision above. *)
Module Legacy.

Record GameState := mkGame {
  board : list string;
  solution : list string;
  initialBoard : string;
  selectedCell : option nat;
  difficulty : string;
  noteMode : bool;
  notes : gmap nat string
}.

Definition isGiven (g : GameState) (i : nat) : bool :=
  bool_decide (charAt (initialBoard g) i ≠ Some EMPTY).

Definition selectCell (index : nat) (g : GameState) : GameState :=
  if isGiven g index then g
  else mkGame (board g) (solution g) (initialBoard g) (Some index)
         (difficulty g) (noteMode g) (notes g).

Definition placeNumber (number : string) (g : GameState) : GameState :=
  match selectedCell g with
  | None => g
  | Some sel =>
      if isGiven g sel then g
      else if noteMode g then
        if bool_decide (number = ERASE) then
          mkGame (board g) (solution g) (initialBoard g) (selectedCell g)
            (difficulty g) (noteMode g) (delete sel (notes g))
        else
          mkGame (<[ sel := EMPTY ]> (board g)) (solution g)
            (initialBoard g) (selectedCell g) (difficulty g) (noteMode g)
            (<[ sel := number ]> (notes g))
      else
        mkGame
          (<[ sel := if bool_decide (number = ERASE) then EMPTY
                     else number ]> (board g))
          (solution g) (initialBoard g) (selectedCell g) (difficulty g)
          (noteMode g) (delete sel (notes g))
  end.

End Legacy.

(** ** A sample game

    The puzzle of the specification's scenarios (blanks as the generator
    writes them) with its solution, and a few states of a game on it. *)

Definition samplePuzzle : string :=
  "53--7----6--195----98----6-8---6---34--8-3--17---2---6-6----28----419--5----8--79".

Definition sampleSolution : string :=
  "534678912672195348198342567859761423426853791713924856961537284287419635345286179".

Definition sampleGame : GameState :=
  newGame samplePuzzle sampleSolution None "medium" false.

(** Cell 2 (row 0, column 2) is blank; cell 0 is the given 5. *)
Definition sampleSelected : GameState := (selectCell 2 sampleGame).1.

Definition sampleNoteMode : GameState := setNoteMode true sampleSelected.

(** Notes 4 at cell 2, and 4 and 7 at cell 3, then back to cell 2 in value
    mode. *)
Definition sampleWithNotes : GameState :=
  setNoteMode false
    (selectCell 2
       (placeNumber "7"
          (placeNumber "4"
             (selectCell 3 (placeNumber "4" sampleNoteMode)).1))).1.

(** The sample game with every cell filled in correctly. *)
Definition sampleSolved : GameState :=
  setBoard (split sampleSolution) sampleGame.

(** A snapshot as an earlier version stored it: one string per note, a
    difficulty that is no longer offered, no selection and no mode. *)
Definition legacySnapshot : Snapshot :=
  {| s_board := Some (split (replaceDashes samplePuzzle));
     s_solution := Some (split sampleSolution);
     s_initialBoard := Some (replaceDashes samplePuzzle);
     s_notes := Some {[ 2 := NoteString "4" ]};
     s_difficulty := Some "insane";
     s_selectedCell := None;
     s_noteMode := None |}.

(** A first visit with the sample puzzle, hints for all blanks but the
    last one (cell 78), and that cell selected. *)
Definition sampleApp : App := appConstruct None samplePuzzle sampleSolution.

Definition sampleLastMove : App :=
  appSelectCell 78 (appShowHints (replicate 50 0) sampleApp).

(** The sample in the earlier revision, cell 2 selected in note mode. *)
Definition legacySample : Legacy.GameState :=
  Legacy.mkGame (split (replaceDashes samplePuzzle)) (split sampleSolution)
    (replaceDashes samplePuzzle) (Some 2) "medium" true ∅.

(** * Properties *)

(** ** Strings and arrays *)

Lemma list_ascii_lookup (s : string) (i : nat) :
  list_ascii_of_string s !! i = String.get i s.
Proof.
  revert i. induction s as [|c s IH]; intros [|i]; simpl; auto.
Qed.

Lemma split_lookup (s : string) (i : nat) : split s !! i = charAt s i.
Proof.
  unfold split, charAt. by rewrite list_lookup_fmap, list_ascii_lookup.
Qed.

Lemma list_ascii_length (s : string) :
  length (list_ascii_of_string s) = String.length s.
Proof. induction s; simpl; auto. Qed.

Lemma split_length (s : string) : length (split s) = String.length s.
Proof. unfold split. by rewrite length_fmap, list_ascii_length. Qed.

Lemma replaceDashes_length (s : string) :
  String.length (replaceDashes s) = String.length s.
Proof. induction s; simpl; auto. Qed.

Lemma charAt_lt (s : string) (i : nat) (v : string) :
  charAt s i = Some v → i < String.length s.
Proof.
  rewrite <- split_lookup, <- split_length. apply lookup_lt_Some.
Qed.

Lemma isDigit_not_dot (c : ascii) : isDigit c = true → str1 c ≠ EMPTY.
Proof.
  intros Hd Heq. injection Heq as ->. vm_compute in Hd. discriminate.
Qed.

Lemma split_digits (s : string) :
  forallb isDigit (list_ascii_of_string s) = true → EMPTY ∉ split s.
Proof.
  intros Hall Hin. unfold split in Hin.
  apply list_elem_of_fmap in Hin as (c & Heq & Hc).
  apply list_elem_of_In in Hc.
  rewrite forallb_forall in Hall.
  by apply (isDigit_not_dot c (Hall c Hc)).
Qed.

Lemma cells_spec (i : nat) : In i cells ↔ i < 81.
Proof. unfold cells. rewrite in_seq. lia. Qed.

Lemma isGiven_false (g : GameState) (i : nat) :
  isGiven g i = false ↔ charAt (initialBoard g) i = Some EMPTY.
Proof.
  unfold isGiven. rewrite bool_decide_eq_false.
  split; [apply dec_stable | intros H Hn; by apply Hn].
Qed.

Lemma every_spec {A : Type} (f : A → nat → bool) (a : list A) (i : nat) :
  every f a i = true ↔ ∀ k v, a !! k = Some v → f v (i + k) = true.
Proof.
  revert i. induction a as [|x a IH]; intros i; simpl.
  - split; [intros _ k v Hk; by rewrite lookup_nil in Hk | done].
  - rewrite andb_true_iff, IH. split.
    + intros [Hx Ha] [|k] v Hk; simpl in Hk.
      * injection Hk as <-. by rewrite Nat.add_0_r.
      * rewrite <- Nat.add_succ_comm. by apply Ha.
    + intros H. split.
      * rewrite <- (Nat.add_0_r i). by apply (H 0).
      * intros k v Hk. rewrite Nat.add_succ_comm. by apply (H (S k)).
Qed.

(** ** Note elimination *)

Section Elimination.
Variables (cellIndex : nat) (number : string).
Implicit Types (n : gmap nat (gset string)) (i k : nat).

Lemma eliminateAt_other n i k :
  k ≠ i → eliminateAt cellIndex number i n !! k = n !! k.
Proof.
  intros Hk. unfold eliminateAt.
  repeat case_match; auto.
  - by rewrite lookup_delete_ne.
  - by rewrite lookup_insert_ne.
Qed.

(** The round at a cell that is not a peer changes nothing. *)
Lemma eliminateAt_not_peer n i :
  (i = cellIndex ∨ related cellIndex i = false) →
  eliminateAt cellIndex number i n = n.
Proof.
  unfold eliminateAt. intros [-> | Hr].
  - by rewrite Nat.eqb_refl.
  - rewrite Hr. by case_match.
Qed.

(** The round at a peer, read at that peer. *)
Lemma eliminateAt_peer n i :
  i ≠ cellIndex → related cellIndex i = true →
  eliminateAt cellIndex number i n !! i =
    match n !! i with
    | Some X =>
        if bool_decide (number ∈ X) then
          if size (X ∖ {[ number ]}) =? 0 then None
          else Some (X ∖ {[ number ]})
        else Some X
    | None => None
    end.
Proof.
  intros Hi Hr. unfold eliminateAt.
  apply Nat.eqb_neq in Hi. rewrite Hi, Hr.
  destruct (n !! i) as [X|] eqn:HX; [|done].
  repeat case_match; auto.
  - by rewrite lookup_delete_eq.
  - by rewrite lookup_insert_eq.
Qed.

(** What the round at [k] leaves at [k] depends on the entry at [k] only. *)
Lemma eliminateAt_local n n' k :
  n !! k = n' !! k →
  eliminateAt cellIndex number k n !! k
  = eliminateAt cellIndex number k n' !! k.
Proof.
  intros Heq.
  destruct (decide (k = cellIndex)) as [->|Hk].
  { by rewrite !eliminateAt_not_peer by auto. }
  destruct (related cellIndex k) eqn:Hr.
  - by rewrite !eliminateAt_peer, Heq by done.
  - by rewrite !eliminateAt_not_peer by auto.
Qed.

Lemma eliminate_foldl (l : list nat) n k :
  NoDup l →
  foldl (λ acc i, eliminateAt cellIndex number i acc) n l !! k
  = if bool_decide (k ∈ l) then eliminateAt cellIndex number k n !! k
    else n !! k.
Proof.
  intros Hnd. revert n.
  induction Hnd as [|i l Hi Hnd IH]; intros n.
  { case_bool_decide as Hin; [by apply not_elem_of_nil in Hin | done]. }
  cbn [foldl]. rewrite IH. destruct (decide (k = i)) as [->|Hk].
  - rewrite (bool_decide_eq_false_2 _ Hi).
    by rewrite (bool_decide_eq_true_2 _ (list_elem_of_here i l)).
  - assert (Hsame : eliminateAt cellIndex number i n !! k = n !! k)
      by by apply eliminateAt_other.
    assert (Hcons : k ∈ i :: l ↔ k ∈ l)
      by (rewrite elem_of_cons; tauto).
    rewrite (bool_decide_ext _ _ Hcons).
    case_bool_decide; [by apply eliminateAt_local | done].
Qed.

(** Cells that are not peers of [cellIndex] keep their notes. *)
Lemma eliminate_not_peer n k :
  ¬ peer cellIndex k →
  eliminateNotesInRelatedCells cellIndex number n !! k = n !! k.
Proof.
  intros Hk. unfold eliminateNotesInRelatedCells.
  rewrite eliminate_foldl by apply NoDup_seq.
  case_bool_decide as Hin; [|done].
  rewrite eliminateAt_not_peer; [done|].
  apply list_elem_of_In, cells_spec in Hin.
  destruct (decide (k = cellIndex)); [by left|right].
  destruct (related cellIndex k) eqn:Hr; [|done].
  exfalso. apply Hk. by repeat split.
Qed.

(** A peer loses [number]; a set left empty is deleted. *)
Lemma eliminate_peer n k :
  peer cellIndex k →
  eliminateNotesInRelatedCells cellIndex number n !! k =
    match n !! k with
    | Some X =>
        if bool_decide (number ∈ X) then
          if size (X ∖ {[ number ]}) =? 0 then None
          else Some (X ∖ {[ number ]})
        else Some X
    | None => None
    end.
Proof.
  intros (Hlt & Hne & Hr). unfold eliminateNotesInRelatedCells.
  rewrite eliminate_foldl by apply NoDup_seq.
  rewrite bool_decide_eq_true_2
    by by apply list_elem_of_In, cells_spec.
  by apply eliminateAt_peer.
Qed.

(** Elimination only removes: an entry afterwards comes from an entry
    before, without [number] if the cell is a peer, and is not empty if
    that one was not. *)
Lemma eliminate_Some n k X' :
  eliminateNotesInRelatedCells cellIndex number n !! k = Some X' →
  ∃ X, n !! k = Some X ∧ X' ⊆ X ∧ (X ≠ ∅ → X' ≠ ∅).
Proof.
  destruct (decide (peer cellIndex k)) as [Hp|Hp].
  - rewrite eliminate_peer by done.
    destruct (n !! k) as [X|]; [|done].
    repeat case_match; intros [= <-]; exists X; split_and!; auto.
    + apply subseteq_difference_l. reflexivity.
    + intros _ Hemp. rewrite Hemp, size_empty in *. done.
  - rewrite eliminate_not_peer by done. intros ->. by exists X'.
Qed.
End Elimination.

(** ** Note sets *)

Section NoteSets.
Variables (X : gset string) (d : string).

Lemma noteSet_removed : d ∉ X ∖ {[ d ]}.
Proof. rewrite elem_of_difference, elem_of_singleton. tauto. Qed.

Lemma noteSet_added : d ∈ X ∪ {[ d ]}.
Proof. rewrite elem_of_union, elem_of_singleton. tauto. Qed.

Lemma noteSet_put_back : d ∈ X → X ∖ {[ d ]} ∪ {[ d ]} = X.
Proof.
  intros Hin. apply set_eq. intros x.
  rewrite elem_of_union, elem_of_difference, elem_of_singleton.
  destruct (decide (x = d)) as [->|]; tauto.
Qed.

Lemma noteSet_take_out : d ∉ X → (X ∪ {[ d ]}) ∖ {[ d ]} = X.
Proof.
  intros Hin. apply set_eq. intros x.
  rewrite elem_of_difference, elem_of_union, elem_of_singleton.
  destruct (decide (x = d)) as [->|]; tauto.
Qed.

Lemma noteSet_only : d ∈ X → X ∖ {[ d ]} = ∅ → ∅ ∪ {[ d ]} = X.
Proof.
  intros Hin Hemp. rewrite <- Hemp. by apply noteSet_put_back.
Qed.
End NoteSets.

(** ** Toggling a note *)

Lemma toggleNote_other (sel : nat) (number : string)
    (n : gmap nat (gset string)) (k : nat) :
  k ≠ sel → toggleNote sel number n !! k = n !! k.
Proof.
  intros Hk. unfold toggleNote.
  repeat case_match;
    rewrite ?lookup_delete_ne, ?lookup_insert_ne by done; done.
Qed.

Lemma toggleNote_same (sel : nat) (number : string)
    (n : gmap nat (gset string)) :
  toggleNote sel number n !! sel =
    let X := default ∅ (n !! sel) in
    if bool_decide (number ∈ X) then
      if size (X ∖ {[ number ]}) =? 0 then None
      else Some (X ∖ {[ number ]})
    else Some (X ∪ {[ number ]}).
Proof.
  unfold toggleNote.
  destruct (n !! sel) as [X|] eqn:HX; simpl.
  - rewrite HX. simpl.
    repeat case_match; by rewrite ?lookup_delete_eq, ?lookup_insert_eq.
  - rewrite lookup_insert_eq. simpl.
    repeat case_match; by rewrite ?lookup_delete_eq, ?lookup_insert_eq.
Qed.

Lemma toggleNote_nonempty (sel : nat) (number : string)
    (n : gmap nat (gset string)) (X' : gset string) :
  toggleNote sel number n !! sel = Some X' → X' ≠ ∅.
Proof.
  rewrite toggleNote_same. simpl.
  repeat case_match; intros [= <-].
  - intros Hemp. rewrite Hemp, size_empty in *. done.
  - set_solver.
Qed.

(** ** What the moves leave alone *)

Lemma placeNumber_frame (number : string) (g : GameState) :
  solution (placeNumber number g) = solution g
  ∧ initialBoard (placeNumber number g) = initialBoard g
  ∧ selectedCell (placeNumber number g) = selectedCell g
  ∧ difficulty (placeNumber number g) = difficulty g
  ∧ noteMode (placeNumber number g) = noteMode g
  ∧ length (board (placeNumber number g)) = length (board g).
Proof.
  unfold placeNumber.
  repeat case_match; simpl; rewrite ?length_insert; by split_and!.
Qed.

Lemma showHint_frame (pick : nat) (g : GameState) :
  solution (showHint pick g) = solution g
  ∧ initialBoard (showHint pick g) = initialBoard g
  ∧ difficulty (showHint pick g) = difficulty g
  ∧ noteMode (showHint pick g) = noteMode g
  ∧ length (board (showHint pick g)) = length (board g).
Proof.
  unfold showHint.
  repeat case_match; simpl; rewrite ?length_insert; by split_and!.
Qed.

(** A move writes the board at one cell at most, and that cell is not a
    given. *)
Lemma placeNumber_board (number : string) (g : GameState) :
  board (placeNumber number g) = board g
  ∨ ∃ sel v, selectedCell g = Some sel ∧ isGiven g sel = false
             ∧ board (placeNumber number g) = <[ sel := v ]> (board g).
Proof.
  unfold placeNumber.
  destruct (selectedCell g) as [sel|]; [|by left].
  destruct (isGiven g sel) eqn:Hg; [by left|].
  right. exists sel.
  repeat case_match; simpl; eauto.
Qed.

Lemma emptyCells_spec (g : GameState) (i : nat) :
  i ∈ emptyCells g ↔ board g !! i = Some EMPTY ∧ isGiven g i = false.
Proof.
  unfold emptyCells.
  rewrite list_elem_of_In, filter_In, in_seq, andb_true_iff.
  rewrite bool_decide_eq_true, negb_true_iff.
  split; [tauto|]. intros [Hb Hg]. split_and!; auto; try lia.
  by apply lookup_lt_Some in Hb.
Qed.

(** A hint is given at one of the empty cells that are not givens. *)
Lemma showHint_cases (pick : nat) (g : GameState) :
  showHint pick g = g
  ∨ ∃ r h, r ∈ emptyCells g ∧ solution g !! r = Some h
           ∧ showHint pick g =
               mkGame (<[ r := h ]> (board g)) (solution g) (initialBoard g)
                 (Some r) (difficulty g) (noteMode g)
                 (eliminateNotesInRelatedCells r h (delete r (notes g))).
Proof.
  unfold showHint.
  destruct (length (emptyCells g) =? 0); [by left|].
  destruct (emptyCells g !! (pick mod length (emptyCells g)))
    as [r|] eqn:Hr; [|by left].
  destruct (solution g !! r) as [h|] eqn:Hh; [|by left].
  right. exists r, h. split_and!; auto.
  apply list_elem_of_lookup. eauto.
Qed.

(** ** The invariants are kept *)

Lemma newGame_wellFormed puzzle sol sel d m :
  generated puzzle sol = true → d ∈ validDifficulties →
  wellFormed (newGame puzzle sol sel d m).
Proof.
  unfold generated. rewrite !andb_true_iff, !Nat.eqb_eq.
  intros [[[Hp Hs] _] Hd] Hv.
  constructor; simpl;
    rewrite ?split_length, ?replaceDashes_length; auto.
  by apply split_digits.
Qed.

Lemma newGame_givensKept puzzle sol sel d m :
  givensKept (newGame puzzle sol sel d m).
Proof. intros i v Hi _. simpl in *. by rewrite split_lookup. Qed.

Lemma newGame_notesExclusive puzzle sol sel d m :
  notesExclusive (newGame puzzle sol sel d m).
Proof. intros i X Hi. simpl in Hi. by rewrite lookup_empty in Hi. Qed.

Lemma placeNumber_wellFormed number g :
  wellFormed g → wellFormed (placeNumber number g).
Proof.
  destruct (placeNumber_frame number g) as (Hs & Hi & _ & Hd & _ & Hl).
  intros [? ? ? ? ?]. constructor; congruence.
Qed.

Lemma showHint_wellFormed pick g :
  wellFormed g → wellFormed (showHint pick g).
Proof.
  destruct (showHint_frame pick g) as (Hs & Hi & Hd & _ & Hl).
  intros [? ? ? ? ?]. constructor; congruence.
Qed.

Lemma placeNumber_givensKept number g :
  givensKept g → givensKept (placeNumber number g).
Proof.
  intros Hk i v Hi Hv.
  destruct (placeNumber_frame number g) as (_ & Hib & _).
  rewrite Hib in Hi.
  destruct (placeNumber_board number g)
    as [-> | (sel & w & _ & Hg & ->)]; [by apply Hk|].
  apply isGiven_false in Hg.
  rewrite list_lookup_insert_ne; [by apply Hk|].
  intros ->. congruence.
Qed.

Lemma showHint_givensKept pick g :
  givensKept g → givensKept (showHint pick g).
Proof.
  intros Hk i v Hi Hv.
  destruct (showHint_frame pick g) as (_ & Hib & _).
  rewrite Hib in Hi.
  destruct (showHint_cases pick g) as [-> | (r & h & Hr & _ & ->)];
    [by apply Hk|].
  simpl.
  apply emptyCells_spec in Hr as [_ Hg]. apply isGiven_false in Hg.
  rewrite list_lookup_insert_ne; [by apply Hk|].
  intros ->. congruence.
Qed.

Lemma placeNumber_notesExclusive number g :
  wellFormed g → notesExclusive g → notesExclusive (placeNumber number g).
Proof.
  intros Hwf Hex. unfold placeNumber.
  destruct (selectedCell g) as [sel|]; [|done].
  destruct (isGiven g sel) eqn:Hg; [done|].
  assert (Hsel : sel < length (board g)).
  { apply isGiven_false, charAt_lt in Hg.
    destruct Hwf. lia. }
  destruct (noteMode g); [case_bool_decide|]; intros i X; simpl.
  - destruct (decide (i = sel)) as [->|Hi].
    + by rewrite lookup_delete_eq.
    + rewrite lookup_delete_ne, list_lookup_insert_ne by done. apply Hex.
  - destruct (decide (i = sel)) as [->|Hi].
    + intros HX. rewrite list_lookup_insert_eq by done.
      split; [done|]. by apply toggleNote_nonempty in HX.
    + rewrite toggleNote_other, list_lookup_insert_ne by done. apply Hex.
  - assert (Hdel : ∀ Y, delete sel (notes g) !! i = Some Y →
                        <[ sel := if bool_decide (number = ERASE)
                                  then EMPTY else number ]> (board g) !! i
                        = Some EMPTY ∧ Y ≠ ∅).
    { intros Y. destruct (decide (i = sel)) as [->|Hi].
      - by rewrite lookup_delete_eq.
      - rewrite lookup_delete_ne, list_lookup_insert_ne by done. apply Hex. }
    case_bool_decide; simpl; [apply Hdel|].
    intros HX. apply eliminate_Some in HX as (Y & HY & _ & Hne).
    apply Hdel in HY as [Hb HYne]. auto.
Qed.

Lemma showHint_notesExclusive pick g :
  notesExclusive g → notesExclusive (showHint pick g).
Proof.
  intros Hex.
  destruct (showHint_cases pick g) as [-> | (r & h & Hr & _ & ->)]; [done|].
  intros i X; simpl. intros HX.
  apply eliminate_Some in HX as (Y & HY & _ & Hne).
  destruct (decide (i = r)) as [->|Hi].
  - by rewrite lookup_delete_eq in HY.
  - rewrite lookup_delete_ne in HY by done.
    rewrite list_lookup_insert_ne by done.
    apply Hex in HY as [Hb HYne]. auto.
Qed.

(** ** Saving and loading *)

Lemma loadNotes_saveNotes (n : gmap nat (gset string)) :
  loadNotes (Some (saveNotes n)) = n.
Proof.
  apply map_eq. intros i. unfold loadNotes, saveNotes.
  rewrite lookup_omap, lookup_fmap.
  destruct (n !! i) as [X|]; simpl; [|done].
  by rewrite list_to_set_elements_L.
Qed.

Lemma loadDifficulty_valid (d : string) :
  d ∈ validDifficulties → loadDifficulty (Some d) = d.
Proof. intros Hd. simpl. by rewrite bool_decide_eq_true_2. Qed.

(** A state with a non-empty [initialBoard] and a difficulty of the list
    comes back from the store as it was. *)
Lemma loadGame_saveGame (g : GameState) :
  initialBoard g ≠ EmptyString → difficulty g ∈ validDifficulties →
  loadGame (Some (saveGame g)) = Some g.
Proof.
  intros Hib Hd. unfold loadGame, saveGame, truthyString.
  cbn -[loadNotes saveNotes loadDifficulty].
  rewrite bool_decide_eq_false_2 by done.
  cbn -[loadNotes saveNotes loadDifficulty].
  rewrite loadNotes_saveNotes, loadDifficulty_valid by done.
  by destruct g.
Qed.

Lemma loadDifficulty_listed (d : option string) :
  loadDifficulty d ∈ validDifficulties.
Proof.
  assert (Hmedium : "medium" ∈ validDifficulties)
    by (apply list_elem_of_In; simpl; auto).
  destruct d as [s|]; simpl; [|done].
  by case_bool_decide.
Qed.

(** Whatever [loadGame] accepted, legacy snapshots included, is stored and
    loaded again without change. *)
Lemma loadGame_stable (item : Storage) (g : GameState) :
  loadGame item = Some g → loadGame (Some (saveGame g)) = Some g.
Proof.
  intros Hload. apply loadGame_saveGame.
  - unfold loadGame in Hload. repeat case_match; try done.
    injection Hload as <-. simpl.
    destruct (s_initialBoard snap) as [ib|]; simpl in *; [|done].
    by case_bool_decide.
  - unfold loadGame in Hload. repeat case_match; try done.
    injection Hload as <-. apply loadDifficulty_listed.
Qed.

Lemma wellFormed_initialBoard (g : GameState) :
  wellFormed g → initialBoard g ≠ EmptyString.
Proof. intros [_ _ Hl _ _] Heq. rewrite Heq in Hl. discriminate. Qed.

(** ** Reachable states keep the invariants *)

Lemma reachable_invariants (g : GameState) :
  reachable g → wellFormed g ∧ givensKept g ∧ notesExclusive g.
Proof.
  induction 1 as [puzzle sol sel d m Hgen Hd
                 |puzzle sol g Hgen Hg IH
                 |index g Hindex Hg IH
                 |number g Hg IH
                 |pick g Hg IH
                 |m g Hg IH
                 |d g Hd Hg IH
                 |g g' Hg IH Hload].
  - split_and!; [by apply newGame_wellFormed
                |apply newGame_givensKept|apply newGame_notesExclusive].
  - destruct IH as ([? ? ? ? ?] & _ & _).
    split_and!; [by apply newGame_wellFormed
                |apply newGame_givensKept|apply newGame_notesExclusive].
  - destruct IH as ([? ? ? ? ?] & ? & ?). by split_and!.
  - destruct IH as (? & ? & ?).
    split_and!; [by apply placeNumber_wellFormed
                |by apply placeNumber_givensKept
                |by apply placeNumber_notesExclusive].
  - destruct IH as (? & ? & ?).
    split_and!; [by apply showHint_wellFormed
                |by apply showHint_givensKept
                |by apply showHint_notesExclusive].
  - destruct IH as ([? ? ? ? ?] & ? & ?). by split_and!.
  - destruct IH as ([? ? ? ? ?] & ? & ?). by split_and!.
  - destruct IH as (Hwf & ? & ?).
    rewrite loadGame_saveGame in Hload;
      [|by apply wellFormed_initialBoard|by destruct Hwf].
    injection Hload as <-. by split_and!.
Qed.

Lemma reachable_wellFormed (g : GameState) : reachable g → wellFormed g.
Proof. intros Hg. by apply reachable_invariants in Hg as (? & _). Qed.

Lemma sampleGame_reachable : reachable sampleGame.
Proof.
  apply reach_first; [reflexivity|].
  apply list_elem_of_In. simpl. auto.
Qed.

Lemma sampleSelected_reachable : reachable sampleSelected.
Proof. apply reach_select; [lia | apply sampleGame_reachable]. Qed.

Lemma sampleNoteMode_reachable : reachable sampleNoteMode.
Proof. apply reach_noteMode, sampleSelected_reachable. Qed.

Lemma sampleWithNotes_reachable : reachable sampleWithNotes.
Proof.
  apply reach_noteMode, reach_select; [lia|].
  do 2 apply reach_place. apply reach_select; [lia|].
  apply reach_place, sampleNoteMode_reachable.
Qed.

(** * The specification's properties *)

(** C1. Round trip through the store: for every reachable game state [g],
    [loadGame] applied to what [saveGame] stored succeeds and rebuilds [g]:
    the same board, solution, initial board, difficulty, selected cell and
    note mode, and for every cell the same note set. Note sets are [gset]s,
    whose equality is equality of membership; the order in which
    [Array.from] lists a set plays no part. *)
Theorem saveGame_loadGame_roundtrip (g : GameState) :
  reachable g → loadGame (Some (saveGame g)) = Some g.
Proof.
  intros Hg. apply reachable_wellFormed in Hg.
  apply loadGame_saveGame;
    [by apply wellFormed_initialBoard | by destruct Hg].
Qed.

Lemma saveGame_loadGame_roundtrip_witness :
  reachable sampleWithNotes
  ∧ loadGame (Some (saveGame sampleWithNotes)) = Some sampleWithNotes.
Proof.
  split; [apply sampleWithNotes_reachable|].
  apply (saveGame_loadGame_roundtrip sampleWithNotes).
  apply sampleWithNotes_reachable.
Defined.

(** C2. Given cells are immutable. If the initial board is not empty at
    [i], then [placeNumber], whatever the input (a digit or the erase
    input) and whatever cell is selected, leaves the board at [i] as it
    was; and in every reachable state the board at a given cell shows the
    initial board's value, before the move and after it. *)
Theorem given_cell_immutable (g : GameState) (number : string) (i : nat) :
  isGiven g i = true →
  board (placeNumber number g) !! i = board g !! i
  ∧ (reachable g →
     board g !! i = charAt (initialBoard g) i
     ∧ board (placeNumber number g) !! i = charAt (initialBoard g) i).
Proof.
  intros Hgiven.
  assert (Hsame : board (placeNumber number g) !! i = board g !! i).
  { destruct (placeNumber_board number g)
      as [-> | (sel & v & _ & Hsel & ->)]; [done|].
    apply list_lookup_insert_ne. intros ->. congruence. }
  split; [done|]. intros Hg. rewrite Hsame.
  apply reachable_invariants in Hg as (Hwf & Hkept & _).
  assert (board g !! i = charAt (initialBoard g) i); [|done].
  destruct (charAt (initialBoard g) i) as [v|] eqn:Hv.
  - apply Hkept; [done|]. intros ->.
    apply isGiven_false in Hv. congruence.
  - apply lookup_ge_None. rewrite <- split_lookup in Hv.
    apply lookup_ge_None in Hv. rewrite split_length in Hv.
    destruct Hwf. lia.
Qed.

(** Cell 0 of the sample is the given 5. With it selected, the input 9
    changes nothing there. *)
Lemma given_cell_immutable_witness :
  isGiven (selectCell 0 sampleGame).1 0 = true
  ∧ reachable (selectCell 0 sampleGame).1
  ∧ board (placeNumber "9" (selectCell 0 sampleGame).1) !! 0 = Some "5".
Proof.
  assert (Hreach : reachable (selectCell 0 sampleGame).1)
    by (apply reach_select; [lia | apply sampleGame_reachable]).
  split_and!; [reflexivity | exact Hreach |].
  destruct (given_cell_immutable (selectCell 0 sampleGame).1 "9" 0)
    as [_ Hlife]; [reflexivity|].
  destruct (Hlife Hreach) as [_ ->]. reflexivity.
Defined.

(** C3, as claimed, fails: in a new game every blank cell has neither a
    value nor a note set, so "no note entry" does not imply "a value". *)
Lemma value_iff_no_notes_counterexample :
  ¬ (∀ g, reachable g →
       ∀ i, i < 81 →
         ((∃ v, board g !! i = Some v ∧ v ≠ EMPTY) ↔ notes g !! i = None)).
Proof.
  intros Hclaim.
  destruct (Hclaim sampleGame sampleGame_reachable 2 ltac:(lia))
    as [_ Hback].
  destruct (Hback eq_refl) as (v & Hv & Hne).
  vm_compute in Hv. by injection Hv as <-.
Qed.

(** C3, amended. In every reachable state and for every cell [i]: a cell
    that holds a value has no entry in the notes mapping; a cell with an
    entry holds the empty marker; and the note set of an entry is never
    empty (an emptied set is deleted). A blank cell may have no entry. *)
Theorem value_excludes_notes (g : GameState) (i : nat) :
  reachable g →
  (∀ v, board g !! i = Some v → v ≠ EMPTY → notes g !! i = None)
  ∧ (∀ X, notes g !! i = Some X → board g !! i = Some EMPTY ∧ X ≠ ∅).
Proof.
  intros Hg. apply reachable_invariants in Hg as (_ & _ & Hex).
  split; [|apply Hex].
  intros v Hv Hne. destruct (notes g !! i) as [X|] eqn:HX; [|done].
  apply Hex in HX as [Hb _]. congruence.
Qed.

Lemma value_excludes_notes_witness :
  reachable sampleWithNotes
  ∧ notes sampleWithNotes !! 0 = None
  ∧ board sampleWithNotes !! 3 = Some EMPTY.
Proof.
  split; [apply sampleWithNotes_reachable|].
  destruct (value_excludes_notes sampleWithNotes 0 sampleWithNotes_reachable)
    as [Hvalue _].
  destruct (value_excludes_notes sampleWithNotes 3 sampleWithNotes_reachable)
    as [_ Hnotes].
  split.
  - apply (Hvalue "5"); [reflexivity | discriminate].
  - apply (Hnotes {[ "4"; "7" ]}). by vm_compute.
Defined.

Lemma size_zero_empty (X : gset string) : (size X =? 0) = true ↔ X = ∅.
Proof.
  rewrite Nat.eqb_eq, size_empty_iff. by unfold_leibniz.
Qed.

(** The value-mode move with a digit, written out. *)
Lemma placeNumber_value (g : GameState) (sel : nat) (number : string) :
  selectedCell g = Some sel → isGiven g sel = false → noteMode g = false →
  number ≠ ERASE →
  placeNumber number g =
    mkGame (<[ sel := number ]> (board g)) (solution g) (initialBoard g)
      (Some sel) (difficulty g) false
      (eliminateNotesInRelatedCells sel number (delete sel (notes g))).
Proof.
  intros Hsel Hg Hm Hn. unfold placeNumber.
  rewrite Hsel, Hg, Hm, !bool_decide_eq_false_2 by done.
  unfold setBoard, setNotes. simpl. by rewrite Hsel, Hm.
Qed.

(** C4. Note elimination. Committing the digit [D] into the selected
    non-given cell [C] in value mode removes [D] from the note set of every
    peer [P] of [C] (same row, column or box): afterwards no note set of a
    peer contains [D]. A peer without notes stays without; a note set
    without [D] is kept; a note set with [D] loses exactly [D], and is
    deleted from the mapping if that leaves it empty. *)
Theorem placeNumber_eliminates_notes
    (g : GameState) (C : nat) (D : string) (P : nat) :
  selectedCell g = Some C → isGiven g C = false → noteMode g = false →
  D ≠ ERASE → peer C P →
  (∀ X, notes (placeNumber D g) !! P = Some X → D ∉ X)
  ∧ (notes g !! P = None → notes (placeNumber D g) !! P = None)
  ∧ (∀ X, notes g !! P = Some X → D ∉ X →
          notes (placeNumber D g) !! P = Some X)
  ∧ (∀ X, notes g !! P = Some X → D ∈ X →
          notes (placeNumber D g) !! P =
            if decide (X ∖ {[ D ]} = ∅) then None else Some (X ∖ {[ D ]})).
Proof.
  intros Hsel Hg Hm HD Hpeer.
  rewrite (placeNumber_value g C D) by done. simpl.
  rewrite eliminate_peer by done.
  assert (HPC : P ≠ C) by by destruct Hpeer as (_ & ? & _).
  rewrite lookup_delete_ne by done.
  destruct (notes g !! P) as [X|]; [|split_and!; intros; congruence].
  split_and!.
  - intros Y. case_bool_decide as HDX; [case_match|]; intros [= <-]; [|done].
    apply not_elem_of_difference. right. by apply elem_of_singleton.
  - done.
  - intros ? [= <-] Hnot. by rewrite bool_decide_eq_false_2.
  - intros ? [= <-] Hin. rewrite bool_decide_eq_true_2 by done.
    destruct (size (X ∖ {[ D ]}) =? 0) eqn:Hsz;
      case_decide as Hempty; try done.
    + by apply size_zero_empty in Hsz.
    + apply size_zero_empty in Hempty. congruence.
Qed.

Lemma placeNumber_eliminates_notes_witness :
  peer 2 3
  ∧ notes sampleWithNotes !! 3 = Some {[ "4"; "7" ]}
  ∧ notes (placeNumber "4" sampleWithNotes) !! 3 = Some {[ "7" ]}.
Proof.
  assert (Hpeer : peer 2 3) by (repeat split; [lia | lia]).
  assert (Hnotes : notes sampleWithNotes !! 3 = Some {[ "4"; "7" ]})
    by by vm_compute.
  split_and!; [done | done |].
  destruct (placeNumber_eliminates_notes sampleWithNotes 2 "4" 3)
    as (_ & _ & _ & Hin); [reflexivity..|discriminate|done|].
  rewrite (Hin _ Hnotes) by by vm_compute.
  by vm_compute.
Defined.

(** [isCorrect] says that the board agrees with the solution at every
    position. *)
Lemma checkWin_true (g : GameState) :
  length (board g) = 81 →
  checkWin g = true ↔ ∀ i, i < 81 → board g !! i = solution g !! i.
Proof.
  intros Hlen. unfold checkWin. rewrite every_spec. split.
  - intros Hall i Hi.
    destruct (lookup_lt_is_Some_2 (board g) i) as [v Hv]; [lia|].
    rewrite Hv. apply Hall in Hv. by apply bool_decide_eq_true in Hv.
  - intros Heq k v Hk. apply bool_decide_eq_true. simpl.
    rewrite <- Hk. apply Heq. apply lookup_lt_Some in Hk. lia.
Qed.

(** A board that agrees with a solution made of digits is complete. *)
Lemma solved_isComplete (g : GameState) :
  length (board g) = 81 → EMPTY ∉ solution g →
  (∀ i, i < 81 → board g !! i = solution g !! i) → isComplete g = true.
Proof.
  intros Hlen Hsolved Heq. unfold isComplete.
  apply negb_true_iff, bool_decide_eq_false. intros Hin.
  apply list_elem_of_lookup in Hin as [k Hk].
  apply Hsolved, list_elem_of_lookup. exists k.
  rewrite <- Heq; [done|]. apply lookup_lt_Some in Hk. lia.
Qed.

(** After a move: the win is reported exactly on a complete board that
    agrees with the solution. *)
Lemma winReport_Solved (g : GameState) :
  length (board g) = 81 →
  winReport g = Solved ↔
    isComplete g = true ∧ ∀ i, i < 81 → board g !! i = solution g !! i.
Proof.
  intros Hlen. rewrite <- checkWin_true by done. unfold winReport.
  destruct (isComplete g), (checkWin g); split;
    try done; intros [? ?]; done.
Qed.

(** [placeNumber] reports a win only for a complete board that agrees with
    the solution. *)
Lemma placeNumberReport_Solved (number : string) (g : GameState) :
  length (board g) = 81 → placeNumberReport number g = Solved →
  isComplete (placeNumber number g) = true
  ∧ ∀ i, i < 81 → board (placeNumber number g) !! i = solution g !! i.
Proof.
  intros Hlen. unfold placeNumberReport.
  destruct (placeNumber_frame number g) as (Hsol & _ & _ & _ & _ & Hl).
  rewrite <- Hsol.
  destruct (selectedCell g) as [sel|]; [|done].
  destruct (isGiven g sel); [done|].
  destruct (noteMode g); [done|].
  apply winReport_Solved. congruence.
Qed.

(** C5. [checkWin] on a board of 81 cells with a solution made of digits
    (no empty marker in it): it reports a win exactly when the board is
    complete, with no empty marker left, and equals the solution at each of
    the 81 positions. A complete board that differs from the solution at
    some position is reported as not won. *)
Theorem checkWin_spec (g : GameState) :
  length (board g) = 81 → EMPTY ∉ solution g →
  (checkWin g = true ↔
     isComplete g = true ∧ ∀ i, i < 81 → board g !! i = solution g !! i)
  ∧ (isComplete g = true →
     (∃ i, i < 81 ∧ board g !! i ≠ solution g !! i) →
     checkWin g = false).
Proof.
  intros Hlen Hsolved. split.
  - rewrite checkWin_true by done. split.
    + intros Heq. split; [by apply solved_isComplete | done].
    + by intros [_ Heq].
  - intros _ (i & Hi & Hne).
    destruct (checkWin g) eqn:Hw; [|done].
    exfalso. apply Hne. by apply checkWin_true.
Qed.

(** The solved sample is a win; with a 1 in place of the 4 at cell 2 it is
    complete but not a win. *)
Lemma checkWin_spec_witness :
  checkWin sampleSolved = true
  ∧ isComplete (setBoard (<[ 2 := "1" ]> (board sampleSolved)) sampleSolved)
    = true
  ∧ checkWin (setBoard (<[ 2 := "1" ]> (board sampleSolved)) sampleSolved)
    = false.
Proof.
  assert (Hsolved : EMPTY ∉ solution sampleSolved)
    by (apply split_digits; reflexivity).
  split_and!.
  - apply (checkWin_spec sampleSolved); [reflexivity | exact Hsolved |].
    split; reflexivity.
  - reflexivity.
  - apply (checkWin_spec
             (setBoard (<[ 2 := "1" ]> (board sampleSolved)) sampleSolved));
      [reflexivity | exact Hsolved | reflexivity |].
    exists 2. split; [lia | discriminate].
Defined.

Lemma related_spec (c i : nat) :
  related c i = true ↔
    rowOf i = rowOf c ∨ colOf i = colOf c
    ∨ (boxRowOf i = boxRowOf c ∧ boxColOf i = boxColOf c).
Proof.
  unfold related.
  rewrite !orb_true_iff, andb_true_iff, !Nat.eqb_eq. tauto.
Qed.

(** The same in plain arithmetic: the row is [i / 9], the column
    [i mod 9], the box the pair of [i / 27] and [i mod 9 / 3]. *)
Lemma related_units (c i : nat) :
  related c i = true ↔
    i / 9 = c / 9 ∨ i mod 9 = c mod 9
    ∨ (i / 27 = c / 27 ∧ i mod 9 / 3 = c mod 9 / 3).
Proof.
  rewrite related_spec. unfold boxRowOf, boxColOf, rowOf, colOf.
  rewrite !Nat.mul_cancel_r by lia.
  by rewrite !Nat.Div0.div_div.
Qed.

(** C6. [hasConstraintViolation] on a board of 81 cells: it returns true
    exactly when the board holds a non-empty value at [i] and some peer of
    [i] (another cell of its row, column or box) holds the same value. On
    an empty cell it returns false. *)
Theorem hasConstraintViolation_spec (g : GameState) (i : nat) :
  length (board g) = 81 →
  (hasConstraintViolation g i = true ↔
     ∃ v, board g !! i = Some v ∧ v ≠ EMPTY
          ∧ ∃ p, peer i p ∧ board g !! p = Some v)
  ∧ (board g !! i = Some EMPTY → hasConstraintViolation g i = false).
Proof.
  intros Hlen. unfold hasConstraintViolation.
  split.
  - case_bool_decide as Hempty.
    { split; [done|]. intros (v & Hv & Hne & _). congruence. }
    rewrite existsb_exists. split.
    + intros (p & Hp & Htest).
      rewrite !andb_true_iff, negb_true_iff, Nat.eqb_neq in Htest.
      destruct Htest as [[Hpi Hrel] Hval].
      apply bool_decide_eq_true in Hval. apply cells_spec in Hp.
      destruct (lookup_lt_is_Some_2 (board g) p) as [v Hv]; [lia|].
      exists v. rewrite <- Hval. split_and!; [done|congruence|].
      exists p. by repeat split.
    + intros (v & Hv & Hne & p & (Hp & Hpi & Hrel) & Hpv).
      exists p. split; [by apply cells_spec|].
      rewrite !andb_true_iff, negb_true_iff, Nat.eqb_neq.
      split_and!; [done..|]. apply bool_decide_eq_true. congruence.
  - intros Hv. by rewrite bool_decide_eq_true_2.
Qed.

(** Cell 2 is in the row of the given 5 at cell 0: a 5 placed there is in
    violation. *)
Lemma hasConstraintViolation_spec_witness :
  length (board (placeNumber "5" sampleSelected)) = 81
  ∧ hasConstraintViolation (placeNumber "5" sampleSelected) 2 = true
  ∧ hasConstraintViolation sampleSelected 2 = false.
Proof.
  split; [reflexivity|]. split.
  - apply (hasConstraintViolation_spec (placeNumber "5" sampleSelected) 2);
      [reflexivity|].
    exists "5". split_and!; [reflexivity | discriminate |].
    exists 0. split; [|reflexivity].
    repeat split; lia.
  - apply (hasConstraintViolation_spec sampleSelected 2); reflexivity.
Defined.

(** C7. [selectCell i], for any cell [i] of the grid, a given or not,
    makes [i] the selected cell and changes nothing else. The cells it
    highlights are exactly the other cells of [i]'s row, column or box,
    together with the other cells that hold the same non-empty value as
    cell [i]; cell [i] itself is not among them. *)
Theorem selectCell_spec (g : GameState) (i : nat) :
  i < 81 → length (board g) = 81 →
  (selectCell i g).1 = setSelectedCell (Some i) g
  ∧ selectedCell (selectCell i g).1 = Some i
  ∧ ¬ (i ∈ (selectCell i g).2)
  ∧ ∀ j, j ∈ (selectCell i g).2 ↔
         j < 81 ∧ j ≠ i
         ∧ (related i j = true
            ∨ ∃ v, v ≠ EMPTY ∧ board g !! i = Some v ∧ board g !! j = Some v).
Proof.
  intros Hi Hlen.
  assert (Hmem : ∀ j, j ∈ (selectCell i g).2 ↔
            j < 81 ∧ j ≠ i
            ∧ (related i j = true
               ∨ ∃ v, v ≠ EMPTY ∧ board g !! i = Some v
                      ∧ board g !! j = Some v)).
  { intros j. unfold selectCell, highlightRelatedCells, setSelectedCell.
    cbv zeta. cbn [snd board].
    rewrite list_elem_of_In, filter_In, cells_spec.
    rewrite andb_true_iff, orb_true_iff, andb_true_iff.
    rewrite !negb_true_iff, Nat.eqb_neq, bool_decide_eq_false,
      bool_decide_eq_true.
    destruct (lookup_lt_is_Some_2 (board g) i) as [v Hv]; [lia|].
    rewrite Hv. split.
    - intros (Hj & Hji & [Hrel | [Hne Hval]]); split_and!; auto.
      right. exists v. split_and!; auto. congruence.
    - intros (Hj & Hji & [Hrel | (w & Hne & Hw & Hval)]); split_and!; auto.
      right. injection Hw as ->. split; congruence. }
  split_and!; [done | done | | done].
  intros Hin. apply Hmem in Hin as (_ & Hne & _). done.
Qed.

(** Selecting the given 5 at cell 0: the 22 cells highlighted are the 20
    peers of cell 0 and the two other cells that hold a 5. *)
Lemma selectCell_spec_witness :
  isGiven sampleGame 0 = true
  ∧ selectedCell (selectCell 0 sampleGame).1 = Some 0
  ∧ 71 ∈ (selectCell 0 sampleGame).2.
Proof.
  split; [reflexivity|].
  destruct (selectCell_spec sampleGame 0) as (_ & Hsel & _ & Hmem);
    [lia | reflexivity |].
  split; [exact Hsel|].
  apply Hmem. split_and!; [lia | lia |].
  right. exists "5". split_and!; [discriminate | reflexivity | reflexivity].
Defined.

(** C8. Erase in note mode. With a non-given cell [i] of the board
    selected and note mode on, the erase input sets the board at [i] to
    the empty marker and deletes the note entry of [i]; no other cell's
    value or notes change. *)
Theorem noteMode_erase_clears (g : GameState) (i : nat) :
  selectedCell g = Some i → isGiven g i = false → noteMode g = true →
  i < length (board g) →
  board (placeNumber ERASE g) !! i = Some EMPTY
  ∧ notes (placeNumber ERASE g) !! i = None
  ∧ ∀ j, j ≠ i →
      board (placeNumber ERASE g) !! j = board g !! j
      ∧ notes (placeNumber ERASE g) !! j = notes g !! j.
Proof.
  intros Hsel Hg Hm Hi. unfold placeNumber.
  rewrite Hsel, Hg, Hm, bool_decide_eq_true_2 by done. simpl.
  split_and!.
  - by apply list_lookup_insert_eq.
  - apply lookup_delete_eq.
  - intros j Hj. by rewrite list_lookup_insert_ne, lookup_delete_ne.
Qed.

(** Cell 3 of the sample holds the notes 4 and 7; erasing it in note mode
    leaves neither a value nor notes. *)
Lemma noteMode_erase_clears_witness :
  notes (setNoteMode true (selectCell 3 sampleWithNotes).1) !! 3
    = Some {[ "4"; "7" ]}
  ∧ board (placeNumber ERASE
             (setNoteMode true (selectCell 3 sampleWithNotes).1)) !! 3
    = Some EMPTY
  ∧ notes (placeNumber ERASE
             (setNoteMode true (selectCell 3 sampleWithNotes).1)) !! 3
    = None.
Proof.
  split; [by vm_compute|].
  destruct (noteMode_erase_clears
              (setNoteMode true (selectCell 3 sampleWithNotes).1) 3)
    as (Hb & Hn & _); [reflexivity | reflexivity | reflexivity | |].
  - vm_compute. lia.
  - by split.
Defined.

(** The note-mode move with a digit, written out. *)
Lemma placeNumber_note (g : GameState) (sel : nat) (number : string) :
  selectedCell g = Some sel → isGiven g sel = false → noteMode g = true →
  number ≠ ERASE →
  placeNumber number g =
    mkGame (<[ sel := EMPTY ]> (board g)) (solution g) (initialBoard g)
      (Some sel) (difficulty g) true (toggleNote sel number (notes g)).
Proof.
  intros Hsel Hg Hm Hn. unfold placeNumber.
  rewrite Hsel, Hg, Hm, !bool_decide_eq_false_2 by done.
  unfold setBoard, setNotes. simpl. by rewrite Hsel, Hm.
Qed.

(** Toggling a digit twice gives back the note entry, provided it was not
    an empty set. *)
Lemma toggleNote_twice (sel : nat) (number : string)
    (n : gmap nat (gset string)) :
  n !! sel ≠ Some ∅ →
  toggleNote sel number (toggleNote sel number n) = n.
Proof.
  intros Hne. apply map_eq. intros k.
  destruct (decide (k = sel)) as [->|Hk];
    [|by rewrite !toggleNote_other].
  rewrite toggleNote_same. cbv zeta. rewrite toggleNote_same. cbv zeta.
  destruct (n !! sel) as [X|] eqn:HX; cbn [from_option id].
  - destruct (decide (number ∈ X)) as [Hin|Hin].
    + rewrite (bool_decide_eq_true_2 _ Hin).
      destruct (size (X ∖ {[ number ]}) =? 0) eqn:Hsz; cbn [from_option id].
      * apply size_zero_empty in Hsz.
        rewrite bool_decide_eq_false_2
          by apply (not_elem_of_empty (C:=gset string)).
        f_equal. by apply noteSet_only.
      * rewrite bool_decide_eq_false_2 by apply noteSet_removed.
        f_equal. by apply noteSet_put_back.
    + rewrite (bool_decide_eq_false_2 _ Hin). cbn [from_option id].
      rewrite bool_decide_eq_true_2 by apply noteSet_added.
      rewrite noteSet_take_out by done.
      destruct (size X =? 0) eqn:Hsz; [|done].
      apply size_zero_empty in Hsz. congruence.
  - rewrite (bool_decide_eq_false_2 (number ∈ (∅ : gset string)))
      by apply not_elem_of_empty.
    cbn [from_option id].
    rewrite bool_decide_eq_true_2 by apply noteSet_added.
    rewrite noteSet_take_out by apply not_elem_of_empty.
    by rewrite size_empty.
Qed.

(** C9. Toggling a note twice. With note mode on and a non-given, empty
    cell [i] selected, the digit input [D] given twice in a row leaves the
    state as it was before the two inputs. For a cell without notes, the
    first input gives the cell the note set {D}, and the second removes [D]
    and deletes the emptied set: the notes mapping has no entry for [i]
    again. (A cell that had notes gets its note set back.) *)
Theorem toggle_twice_restores (g : GameState) (i : nat) (D : string) :
  selectedCell g = Some i → isGiven g i = false → noteMode g = true →
  board g !! i = Some EMPTY → notes g !! i ≠ Some ∅ → D ≠ ERASE →
  placeNumber D (placeNumber D g) = g
  ∧ (notes g !! i = None →
     notes (placeNumber D g) !! i = Some {[ D ]}
     ∧ notes (placeNumber D (placeNumber D g)) !! i = None).
Proof.
  intros Hsel Hg Hm Hb Hn HD.
  assert (Hback : placeNumber D (placeNumber D g) = g).
  { rewrite (placeNumber_note g i D) by done.
    rewrite (placeNumber_note _ i D) by done. simpl.
    rewrite toggleNote_twice by done.
    rewrite !(list_insert_id (board g) i EMPTY Hb).
    destruct g; simpl in *. congruence. }
  split; [done|]. intros Hnone. rewrite Hback. split; [|done].
  rewrite (placeNumber_note g i D) by done. simpl.
  rewrite toggleNote_same, Hnone. cbn [from_option id].
  rewrite bool_decide_eq_false_2
    by apply (not_elem_of_empty (C:=gset string)).
  by rewrite (left_id_L ∅ (∪)).
Qed.

(** Note 4 twice at the blank cell 2 of the sample, and twice at cell 3,
    which holds the notes 4 and 7. *)
Lemma toggle_twice_restores_witness :
  notes (placeNumber "4" sampleNoteMode) !! 2 = Some {[ "4" ]}
  ∧ notes (placeNumber "4" (placeNumber "4" sampleNoteMode)) !! 2 = None
  ∧ placeNumber "4" (placeNumber "4" sampleNoteMode) = sampleNoteMode
  ∧ placeNumber "4"
      (placeNumber "4" (setNoteMode true (selectCell 3 sampleWithNotes).1))
    = setNoteMode true (selectCell 3 sampleWithNotes).1.
Proof.
  assert (Hfresh : notes sampleNoteMode !! 2 ≠ Some ∅) by discriminate.
  assert (Hdigit : "4" ≠ ERASE) by discriminate.
  destruct (toggle_twice_restores sampleNoteMode 2 "4"
              eq_refl eq_refl eq_refl eq_refl Hfresh Hdigit)
    as (Hback & Hnone).
  destruct (Hnone eq_refl) as [Hone Htwo].
  split_and!; [exact Hone | exact Htwo | exact Hback |].
  assert (Hnotes : notes (setNoteMode true (selectCell 3 sampleWithNotes).1)
                     !! 3 = Some {[ "4"; "7" ]}) by by vm_compute.
  assert (Hfilled : notes (setNoteMode true (selectCell 3 sampleWithNotes).1)
                      !! 3 ≠ Some ∅).
  { rewrite Hnotes. discriminate. }
  assert (Hblank : board (setNoteMode true (selectCell 3 sampleWithNotes).1)
                     !! 3 = Some EMPTY) by by vm_compute.
  exact (proj1 (toggle_twice_restores
                  (setNoteMode true (selectCell 3 sampleWithNotes).1) 3 "4"
                  eq_refl eq_refl eq_refl Hblank Hfilled Hdigit)).
Defined.

(** C10. What [loadGame] accepts. An empty store, text that does not parse,
    and a snapshot without [board], [solution] or [initialBoard] all make
    it return false, and the constructor then starts a new game. Whether a
    snapshot loads depends on these three fields only. When it loads, a
    note stored as one string becomes the set of that one string (a note
    stored as a list becomes the set of its members), and a difficulty that
    is missing or not among the four offered becomes ['medium']. *)
Theorem loadGame_validation (gs : Snapshot) :
  loadGame None = None
  ∧ loadGame (Some NotJSON) = None
  ∧ (s_board gs = None ∨ s_solution gs = None ∨ s_initialBoard gs = None →
     loadGame (Some (JSONObject gs)) = None)
  ∧ (∀ item puzzle sol,
       loadGame item = None →
       construct item puzzle sol = newGame puzzle sol None "medium" false)
  ∧ (is_Some (loadGame (Some (JSONObject gs))) ↔
       is_Some (s_board gs) ∧ is_Some (s_solution gs)
       ∧ truthyString (s_initialBoard gs) = true)
  ∧ ∀ g, loadGame (Some (JSONObject gs)) = Some g →
      (∀ m k s, s_notes gs = Some m → m !! k = Some (NoteString s) →
                notes g !! k = Some {[ s ]})
      ∧ (∀ m k l, s_notes gs = Some m → m !! k = Some (NoteList l) →
                  notes g !! k = Some (list_to_set l))
      ∧ (s_difficulty gs = None → difficulty g = "medium")
      ∧ (∀ d, s_difficulty gs = Some d → d ∉ validDifficulties →
              difficulty g = "medium")
      ∧ (∀ d, s_difficulty gs = Some d → d ∈ validDifficulties →
              difficulty g = d).
Proof.
  split_and!; try done.
  - unfold loadGame. intros [-> | [-> | ->]]; [done| |].
    + by destruct (s_board gs).
    + by destruct (s_board gs), (s_solution gs).
  - intros item puzzle sol Hload. unfold construct. by rewrite Hload.
  - unfold loadGame.
    destruct (s_board gs) as [b|], (s_solution gs) as [sol|],
      (truthyString (s_initialBoard gs));
      (split; [intros Hsome | intros (Hb & Hs & Ht)]);
      first [ by split_and!; eauto
            | by destruct Hsome | by destruct Hb | by destruct Hs | done ].
  - intros g. unfold loadGame.
    destruct (s_board gs) as [b|]; [|done].
    destruct (s_solution gs) as [sol|]; [|done].
    destruct (truthyString (s_initialBoard gs)); [|done].
    intros [= <-]. cbn [notes difficulty]. split_and!.
    + intros m k s -> Hk. unfold loadNotes.
      by rewrite lookup_omap, Hk.
    + intros m k l -> Hk. unfold loadNotes.
      by rewrite lookup_omap, Hk.
    + by intros ->.
    + intros d -> Hd. unfold loadDifficulty.
      by rewrite bool_decide_eq_false_2.
    + intros d -> Hd. by apply loadDifficulty_valid.
Qed.

(** The legacy snapshot loads: the note "4" of cell 2 becomes the set {4},
    the difficulty becomes medium. Without its board it does not load. *)
Lemma loadGame_validation_witness :
  (∃ g, loadGame (Some (JSONObject legacySnapshot)) = Some g
        ∧ notes g !! 2 = Some {[ "4" ]}
        ∧ difficulty g = "medium")
  ∧ loadGame
      (Some (JSONObject
               (mkSnapshot None (s_solution legacySnapshot)
                  (s_initialBoard legacySnapshot) (s_notes legacySnapshot)
                  (s_difficulty legacySnapshot) None None)))
    = None.
Proof.
  split.
  - destruct (loadGame_validation legacySnapshot)
      as (_ & _ & _ & _ & Hloads & Hnorm).
    destruct (proj2 Hloads) as [g Hg].
    { split_and!; [by eexists | by eexists | reflexivity]. }
    exists g. split; [done|].
    destruct (Hnorm g Hg) as (Hstring & _ & _ & Hbad & _).
    split.
    + apply (Hstring {[ 2 := NoteString "4" ]} 2 "4"); reflexivity.
    + apply (Hbad "insane"); [reflexivity|].
      intros Hin. apply list_elem_of_In in Hin. simpl in Hin.
      repeat destruct Hin as [Hin | Hin]; try discriminate Hin. done.
  - apply loadGame_validation. by left.
Defined.

(** * The earlier revision, for comparison

    Where [src/game.js] behaves differently on the points above. *)

(** It has the same guard in [placeNumber]: a given is never written. *)
Lemma Legacy_given_cell (g : Legacy.GameState) (number : string) (i : nat) :
  Legacy.isGiven g i = true →
  Legacy.board (Legacy.placeNumber number g) !! i = Legacy.board g !! i.
Proof.
  intros Hgiven. unfold Legacy.placeNumber.
  destruct (Legacy.selectedCell g) as [sel|]; [|done].
  destruct (Legacy.isGiven g sel) eqn:Hsel; [done|].
  assert (i ≠ sel) by (intros ->; congruence).
  repeat case_match; simpl; by rewrite ?list_lookup_insert_ne.
Qed.

(** It does not select a given cell. *)
Lemma Legacy_selectCell_given (g : Legacy.GameState) (i : nat) :
  Legacy.isGiven g i = true → Legacy.selectCell i g = g.
Proof. intros Hg. unfold Legacy.selectCell. by rewrite Hg. Qed.

(** Its erase in note mode deletes the note and keeps the board. *)
Lemma Legacy_noteMode_erase (g : Legacy.GameState) (i : nat) :
  Legacy.selectedCell g = Some i → Legacy.isGiven g i = false →
  Legacy.noteMode g = true →
  Legacy.board (Legacy.placeNumber ERASE g) = Legacy.board g
  ∧ Legacy.notes (Legacy.placeNumber ERASE g) !! i = None.
Proof.
  intros Hsel Hg Hm. unfold Legacy.placeNumber.
  rewrite Hsel, Hg, Hm, bool_decide_eq_true_2 by done. simpl.
  split; [done | apply lookup_delete_eq].
Qed.

Lemma Legacy_placeNumber_note (g : Legacy.GameState) (i : nat) (D : string) :
  Legacy.selectedCell g = Some i → Legacy.isGiven g i = false →
  Legacy.noteMode g = true → D ≠ ERASE →
  Legacy.placeNumber D g =
    Legacy.mkGame (<[ i := EMPTY ]> (Legacy.board g)) (Legacy.solution g)
      (Legacy.initialBoard g) (Some i) (Legacy.difficulty g) true
      (<[ i := D ]> (Legacy.notes g)).
Proof.
  intros Hsel Hg Hm HD. unfold Legacy.placeNumber.
  by rewrite Hsel, Hg, Hm, bool_decide_eq_false_2.
Qed.

(** Its note is overwritten, not toggled: the same digit twice leaves it. *)
Lemma Legacy_note_twice (g : Legacy.GameState) (i : nat) (D : string) :
  Legacy.selectedCell g = Some i → Legacy.isGiven g i = false →
  Legacy.noteMode g = true → D ≠ ERASE →
  Legacy.notes (Legacy.placeNumber D (Legacy.placeNumber D g)) !! i = Some D.
Proof.
  intros Hsel Hg Hm HD.
  rewrite (Legacy_placeNumber_note g i D) by done.
  rewrite (Legacy_placeNumber_note _ i D) by done.
  apply lookup_insert_eq.
Qed.

(** Its value-mode move leaves the notes of all other cells alone. *)
Lemma Legacy_place_keeps_notes (g : Legacy.GameState) (number : string)
    (j : nat) :
  Legacy.noteMode g = false → Legacy.selectedCell g ≠ Some j →
  Legacy.notes (Legacy.placeNumber number g) !! j = Legacy.notes g !! j.
Proof.
  intros Hm Hj. unfold Legacy.placeNumber.
  destruct (Legacy.selectedCell g) as [sel|]; [|done].
  destruct (Legacy.isGiven g sel); [done|].
  rewrite Hm. simpl. apply lookup_delete_ne. congruence.
Qed.

(** * Further properties of the engine *)

(** ** New games *)

Lemma replaceDashes_get (s : string) (i : nat) :
  String.get i (replaceDashes s)
  = (λ c, if Ascii.eqb c "-"%char then "."%char else c) <$> String.get i s.
Proof.
  revert i. induction s as [|c s IH]; intros [|i]; simpl; auto.
Qed.

(** X1. [startNewGame] copies the puzzle into both the initial board and
    the board with every ['-'] turned into ['.']: the cells a hint may fill
    are exactly the positions where the puzzle has ['-'] (or already
    ['.']). The notes are emptied; the selection, the difficulty and the
    note mode are not reset. *)
Theorem startNewGame_blanks (puzzle sol : string) (g : GameState) (i : nat) :
  board (startNewGame puzzle sol g) !! i
    = charAt (initialBoard (startNewGame puzzle sol g)) i
  ∧ (i ∈ emptyCells (startNewGame puzzle sol g) ↔
       String.get i puzzle = Some "-"%char
       ∨ String.get i puzzle = Some "."%char)
  ∧ notes (startNewGame puzzle sol g) = ∅
  ∧ selectedCell (startNewGame puzzle sol g) = selectedCell g
  ∧ difficulty (startNewGame puzzle sol g) = difficulty g
  ∧ noteMode (startNewGame puzzle sol g) = noteMode g.
Proof.
  split_and!; try done.
  - apply split_lookup.
  - rewrite emptyCells_spec, isGiven_false. simpl.
    rewrite split_lookup. unfold charAt. rewrite replaceDashes_get.
    destruct (String.get i puzzle) as [c|]; simpl.
    + destruct (Ascii.eqb_spec c "-"%char) as [->|Hc].
      * split; [by left | done].
      * split.
        -- intros [Heq _]. right. by injection Heq as ->.
        -- intros [[= ->] | [= ->]]; done.
    + split; [by intros [? _] | by intros [? | ?]].
Qed.

(** ** Hints *)

(** The cell a hint is given at, and what is written there. *)
Lemma showHint_effect (pick : nat) (g : GameState) :
  length (board g) ≤ length (solution g) → emptyCells g ≠ [] →
  ∃ r, emptyCells g !! (pick mod length (emptyCells g)) = Some r
       ∧ board g !! r = Some EMPTY
       ∧ isGiven g r = false
       ∧ board (showHint pick g) !! r = solution g !! r
       ∧ notes (showHint pick g) !! r = None
       ∧ selectedCell (showHint pick g) = Some r
       ∧ ∀ j, j ≠ r → board (showHint pick g) !! j = board g !! j.
Proof.
  intros Hlen Hne.
  assert (Hpos : 0 < length (emptyCells g))
    by (destruct (emptyCells g); [done | simpl; lia]).
  destruct (lookup_lt_is_Some_2 (emptyCells g)
              (pick mod length (emptyCells g))) as [r Hr].
  { apply Nat.mod_upper_bound. lia. }
  assert (Hin : r ∈ emptyCells g) by (apply list_elem_of_lookup; eauto).
  apply emptyCells_spec in Hin as [Hb Hg].
  assert (Hrb : r < length (board g)) by by apply lookup_lt_Some in Hb.
  destruct (lookup_lt_is_Some_2 (solution g) r) as [h Hh]; [lia|].
  exists r. unfold showHint.
  assert (Hz : (length (emptyCells g) =? 0) = false)
    by (apply Nat.eqb_neq; lia).
  rewrite Hz, Hr, Hh. simpl.
  split_and!; try done.
  - by rewrite list_lookup_insert_eq.
  - rewrite eliminate_not_peer, lookup_delete_eq; [done|].
    intros (_ & Hrr & _). done.
  - intros j Hj. by rewrite list_lookup_insert_ne.
Qed.

(** X2. A hint, when some cell is empty and not a given and the solution
    covers the board: [showHint] takes the cell [r] that the draw picks
    among those cells, writes the solution's value there, deletes the
    cell's notes and selects the cell. No other cell of the board changes,
    and the solution, the initial board and the two settings stay. *)
Theorem showHint_fills (pick : nat) (g : GameState) :
  length (board g) ≤ length (solution g) → emptyCells g ≠ [] →
  ∃ r, emptyCells g !! (pick mod length (emptyCells g)) = Some r
       ∧ board g !! r = Some EMPTY
       ∧ isGiven g r = false
       ∧ board (showHint pick g) !! r = solution g !! r
       ∧ notes (showHint pick g) !! r = None
       ∧ selectedCell (showHint pick g) = Some r
       ∧ (∀ j, j ≠ r → board (showHint pick g) !! j = board g !! j)
       ∧ solution (showHint pick g) = solution g
       ∧ initialBoard (showHint pick g) = initialBoard g
       ∧ difficulty (showHint pick g) = difficulty g
       ∧ noteMode (showHint pick g) = noteMode g.
Proof.
  intros Hlen Hne.
  destruct (showHint_effect pick g Hlen Hne)
    as (r & Hr & Hb & Hg & Hnew & Hn & Hs & Hother).
  destruct (showHint_frame pick g) as (Hsol & Hib & Hd & Hm & _).
  exists r. by split_and!.
Qed.

Lemma sampleGame_emptyCells : emptyCells sampleGame ≠ [].
Proof. by vm_compute. Qed.

(** The eighth blank cell of the sample is cell 11; its solution is 2. *)
Lemma showHint_fills_witness :
  board (showHint 7 sampleGame) !! 11 = Some "2"
  ∧ selectedCell (showHint 7 sampleGame) = Some 11.
Proof.
  destruct (showHint_fills 7 sampleGame) as (r & Hr & _ & _ & Hb & _ & Hs & _);
    [by vm_compute | exact sampleGame_emptyCells |].
  vm_compute in Hr. injection Hr as <-.
  split; [by rewrite Hb | exact Hs].
Defined.

(** X3. When no cell is both empty and not a given, [showHint] changes
    nothing, whatever the draw; and on a board covered by a solution
    without empty markers that is the only case in which it changes
    nothing. *)
Theorem showHint_unchanged_iff (pick : nat) (g : GameState) :
  length (board g) ≤ length (solution g) → EMPTY ∉ solution g →
  showHint pick g = g ↔ emptyCells g = [].
Proof.
  intros Hlen Hsolved. split.
  - intros Hsame. destruct (decide (emptyCells g = [])) as [|Hne]; [done|].
    destruct (showHint_effect pick g Hlen Hne)
      as (r & _ & Hb & _ & Hnew & _).
    rewrite Hsame, Hb in Hnew.
    exfalso. apply Hsolved, list_elem_of_lookup. by exists r.
  - intros Hnone. unfold showHint. by rewrite Hnone.
Qed.

Lemma showHint_unchanged_iff_witness :
  showHint 3 sampleSolved = sampleSolved.
Proof.
  apply (showHint_unchanged_iff 3 sampleSolved);
    [by vm_compute | apply split_digits; reflexivity | by vm_compute].
Defined.

(** X5. A hint eliminates like a placed digit: after [showHint] has
    written the value [h] at cell [r], no peer of [r] has [h] in its note
    set. *)
Theorem showHint_eliminates_notes (pick : nat) (g : GameState)
    (r : nat) (h : string) (P : nat) (X : gset string) :
  emptyCells g !! (pick mod length (emptyCells g)) = Some r →
  solution g !! r = Some h → peer r P →
  notes (showHint pick g) !! P = Some X → h ∉ X.
Proof.
  intros Hr Hh Hpeer. unfold showHint.
  assert (Hz : (length (emptyCells g) =? 0) = false).
  { apply Nat.eqb_neq. intros Hz.
    apply lookup_lt_Some in Hr. rewrite Hz in Hr. lia. }
  rewrite Hz, Hr, Hh. simpl.
  rewrite eliminate_peer by done.
  destruct (delete r (notes g) !! P) as [Y|]; [|done].
  case_bool_decide as HhY; [case_match|]; intros [= <-]; [|done].
  apply noteSet_removed.
Qed.

Lemma showHint_eliminates_notes_witness :
  notes sampleWithNotes !! 3 = Some {[ "4"; "7" ]}
  ∧ notes (showHint 0 sampleWithNotes) !! 3 = Some {[ "7" ]}
  ∧ "4" ∉ ({[ "7" ]} : gset string).
Proof.
  assert (Hafter : notes (showHint 0 sampleWithNotes) !! 3 = Some {[ "7" ]})
    by by vm_compute.
  split_and!; [by vm_compute | exact Hafter |].
  apply (showHint_eliminates_notes 0 sampleWithNotes 2 "4" 3 {[ "7" ]});
    [by vm_compute | by vm_compute | repeat split; lia | exact Hafter].
Defined.

Lemma filter_filter_andb {A : Type} (f h : A → bool) (l : list A) :
  List.filter h (List.filter f l) = List.filter (λ x, f x && h x) l.
Proof.
  induction l as [|x l IH]; simpl; [done|].
  destruct (f x); simpl; [destruct (h x)|]; by rewrite IH.
Qed.

Lemma filter_out_length (r : nat) (l : list nat) :
  NoDup l → r ∈ l →
  S (length (List.filter (λ i, negb (i =? r)) l)) = length l.
Proof.
  induction 1 as [|x l Hx Hnd IH]; intros Hin; [by apply elem_of_nil in Hin|].
  simpl. destruct (Nat.eqb_spec x r) as [->|Hxr]; simpl.
  - f_equal. clear IH Hin.
    induction l as [|y l IHl]; simpl; [done|].
    apply not_elem_of_cons in Hx as [Hy Hl].
    apply NoDup_cons in Hnd as [_ Hnd].
    destruct (Nat.eqb_spec y r) as [->|_]; [done|]. simpl.
    f_equal. by apply IHl.
  - f_equal. apply IH. apply elem_of_cons in Hin as [->|Hin]; done.
Qed.

Lemma emptyCells_NoDup (g : GameState) : NoDup (emptyCells g).
Proof.
  unfold emptyCells. apply NoDup_ListNoDup, List.NoDup_filter, seq_NoDup.
Qed.

(** After a hint at [r] the cells left to hint are the others. *)
Lemma emptyCells_showHint (pick : nat) (g : GameState) :
  length (board g) ≤ length (solution g) → EMPTY ∉ solution g →
  emptyCells g ≠ [] →
  ∃ r, r ∈ emptyCells g
       ∧ board (showHint pick g) !! r = solution g !! r
       ∧ (∀ j, j ≠ r → board (showHint pick g) !! j = board g !! j)
       ∧ emptyCells (showHint pick g)
         = List.filter (λ i, negb (i =? r)) (emptyCells g).
Proof.
  intros Hlen Hsolved Hne.
  destruct (showHint_effect pick g Hlen Hne)
    as (r & Hr & Hb & Hg & Hnew & _ & _ & Hother).
  exists r. split_and!; try done.
  { apply list_elem_of_lookup. eauto. }
  destruct (showHint_frame pick g) as (_ & Hib & _ & _ & Hl).
  unfold emptyCells at 2. rewrite filter_filter_andb.
  unfold emptyCells. rewrite Hl.
  apply filter_ext. intros i.
  assert (Hgiven : isGiven (showHint pick g) i = isGiven g i)
    by (unfold isGiven; by rewrite Hib).
  rewrite Hgiven. destruct (Nat.eqb_spec i r) as [->|Hir]; simpl.
  - rewrite andb_false_r, Hnew.
    rewrite bool_decide_eq_false_2; [done|].
    intros Hs. apply Hsolved, list_elem_of_lookup. by exists r.
  - by rewrite andb_true_r, Hother.
Qed.

Lemma emptyCells_complete (g : GameState) :
  wellFormed g → givensKept g →
  emptyCells g = [] ↔ isComplete g = true.
Proof.
  intros Hwf Hkept. unfold isComplete.
  rewrite negb_true_iff, bool_decide_eq_false. split.
  - intros Hnone Hin. apply list_elem_of_lookup in Hin as [i Hi].
    assert (Hempty : i ∈ emptyCells g); [|by rewrite Hnone in Hempty;
                                           apply elem_of_nil in Hempty].
    apply emptyCells_spec. split; [done|].
    apply isGiven_false.
    assert (Hlt : i < String.length (initialBoard g)).
    { apply lookup_lt_Some in Hi. destruct Hwf. lia. }
    rewrite <- split_length in Hlt.
    apply lookup_lt_is_Some_2 in Hlt as [v Hv].
    rewrite split_lookup in Hv. rewrite Hv. f_equal.
    destruct (decide (v = EMPTY)) as [|Hne]; [done|].
    rewrite (Hkept i v Hv Hne) in Hi. by injection Hi.
  - intros Hnot. destruct (emptyCells g) as [|i l] eqn:Hl; [done|].
    exfalso. apply Hnot.
    assert (Hin : i ∈ emptyCells g) by (rewrite Hl; apply list_elem_of_here).
    apply emptyCells_spec in Hin as [Hi _].
    apply list_elem_of_lookup. eauto.
Qed.

Lemma showHints_reachable (picks : list nat) (g : GameState) :
  reachable g → reachable (showHints picks g).
Proof.
  revert g. induction picks as [|p ps IH]; intros g Hg; [done|].
  apply IH. by apply reach_hint.
Qed.

(** The board after enough hints, and the blanks left after any. *)
Lemma showHints_board (picks : list nat) (g : GameState) :
  length (board g) ≤ length (solution g) → EMPTY ∉ solution g →
  length (emptyCells g) ≤ length picks →
  emptyCells (showHints picks g) = []
  ∧ ∀ i, board (showHints picks g) !! i
         = if bool_decide (i ∈ emptyCells g) then solution g !! i
           else board g !! i.
Proof.
  revert g. induction picks as [|p ps IH]; intros g Hlen Hsolved Hpicks.
  { simpl in *. destruct (emptyCells g) eqn:Hl; [|simpl in Hpicks; lia].
    split; [done|]. intros i.
    by rewrite bool_decide_eq_false_2 by apply not_elem_of_nil. }
  change (showHints (p :: ps) g) with (showHints ps (showHint p g)).
  destruct (decide (emptyCells g = [])) as [Hnone|Hne].
  { assert (Hsame : showHint p g = g)
      by (unfold showHint; by rewrite Hnone).
    rewrite Hsame. apply IH; try done. rewrite Hnone. simpl. lia. }
  destruct (emptyCells_showHint p g Hlen Hsolved Hne)
    as (r & Hr & Hnew & Hother & Hleft).
  destruct (showHint_frame p g) as (Hsol & _ & _ & _ & Hl).
  assert (Hcount : S (length (emptyCells (showHint p g)))
                   = length (emptyCells g)).
  { rewrite Hleft. apply filter_out_length; [apply emptyCells_NoDup|done]. }
  destruct (IH (showHint p g)) as [Hdone Hboard].
  { by rewrite Hsol, Hl. }
  { by rewrite Hsol. }
  { simpl in Hpicks. lia. }
  split; [done|]. intros i. rewrite Hboard, Hsol.
  destruct (decide (i = r)) as [->|Hir].
  - rewrite bool_decide_eq_false_2, bool_decide_eq_true_2; [done..|].
    rewrite Hleft, list_elem_of_In, filter_In, Nat.eqb_refl.
    by intros [_ ?].
  - rewrite Hother by done.
    assert (Hmem : i ∈ emptyCells (showHint p g) ↔ i ∈ emptyCells g).
    { rewrite Hleft, !list_elem_of_In, filter_In, negb_true_iff, Nat.eqb_neq.
      tauto. }
    by rewrite (bool_decide_ext _ _ Hmem).
Qed.

(** X4. Hints fill the blanks and nothing else. In a reachable state,
    after at least as many hints as there are empty non-given cells,
    whatever the draws, every one of those cells holds the solution's
    value, every other cell is as it was, and the board is complete. *)
Theorem showHints_complete (picks : list nat) (g : GameState) :
  reachable g → length (emptyCells g) ≤ length picks →
  isComplete (showHints picks g) = true
  ∧ ∀ i, board (showHints picks g) !! i
         = if bool_decide (i ∈ emptyCells g) then solution g !! i
           else board g !! i.
Proof.
  intros Hg Hpicks.
  destruct (reachable_invariants g Hg) as ([Hb Hs _ Hsolved _] & _ & _).
  destruct (showHints_board picks g) as [Hnone Hboard];
    [lia | done | done |].
  split; [|done].
  destruct (reachable_invariants _ (showHints_reachable picks g Hg))
    as (Hwf & Hkept & _).
  by apply emptyCells_complete.
Qed.

(** The sample has 51 blanks: 51 hints complete it. *)
Lemma showHints_complete_witness :
  length (emptyCells sampleGame) = 51
  ∧ isComplete (showHints (replicate 51 0) sampleGame) = true.
Proof.
  split; [by vm_compute|].
  apply (showHints_complete (replicate 51 0) sampleGame);
    [apply sampleGame_reachable | by vm_compute].
Defined.

(** ** Validation *)

Lemma validateCell_Incorrect (g : GameState) (i : nat) :
  validateCell g i = Incorrect ↔
    board g !! i ≠ Some EMPTY ∧ isGiven g i = false
    ∧ board g !! i ≠ solution g !! i.
Proof.
  unfold validateCell.
  destruct (isGiven g i); simpl; rewrite ?andb_false_r, ?andb_true_r.
  - split; [done | by intros (_ & ? & _)].
  - repeat case_bool_decide; split; try done; try tauto.
    all: by intros (? & _ & ?).
Qed.

Lemma hasErrors_false (g : GameState) :
  hasErrors g = false ↔ ∀ i, i < 81 → validateCell g i ≠ Incorrect.
Proof.
  unfold hasErrors. rewrite <- not_true_iff_false, existsb_exists. split.
  - intros Hnone i Hi Hbad. apply Hnone. exists i.
    split; [by apply cells_spec | by rewrite Hbad].
  - intros Hall (i & Hi & Hbad). apply cells_spec in Hi.
    apply (Hall i Hi). by destruct (validateCell g i).
Qed.

(** A cell that is not an empty non-given cell agrees with the solution,
    when the givens do and validation finds no error. *)
Lemma validated_cell (g : GameState) (i : nat) :
  wellFormed g → givensKept g → solutionFits g → hasErrors g = false →
  i < 81 → i ∉ emptyCells g → board g !! i = solution g !! i.
Proof.
  intros Hwf Hkept Hfits Hok Hi Hfilled.
  destruct (isGiven g i) eqn:Hgiven.
  - assert (Hlt : i < length (split (initialBoard g)))
      by (rewrite split_length; destruct Hwf; lia).
    apply lookup_lt_is_Some_2 in Hlt as [v Hv].
    rewrite split_lookup in Hv.
    assert (Hne : v ≠ EMPTY).
    { intros ->. apply isGiven_false in Hv. congruence. }
    by rewrite (Hkept i v Hv Hne), (Hfits i v Hv Hne).
  - rewrite emptyCells_spec in Hfilled.
    destruct (decide (board g !! i = solution g !! i)) as [|Hdiff]; [done|].
    exfalso. apply (proj1 (hasErrors_false g) Hok i Hi).
    apply validateCell_Incorrect. split_and!; [|done|done].
    intros Hempty. by apply Hfilled.
Qed.

(** X6. Validation against the win check, in a reachable state whose
    solution agrees with the givens. A board that [checkWin] accepts has no
    cell marked as an error; and on a complete board, "no errors" from
    [validateBoard] means that [checkWin] accepts it. *)
Theorem validateBoard_checkWin (g : GameState) :
  reachable g → solutionFits g →
  (checkWin g = true → hasErrors g = false)
  ∧ (isComplete g = true → hasErrors g = false → checkWin g = true).
Proof.
  intros Hg Hfits.
  destruct (reachable_invariants g Hg) as (Hwf & Hkept & _).
  assert (Hlen : length (board g) = 81) by by destruct Hwf.
  split.
  - intros Hwin. apply hasErrors_false. intros i Hi Hbad.
    apply validateCell_Incorrect in Hbad as (_ & _ & Hdiff).
    apply Hdiff. by apply checkWin_true.
  - intros Hc Hok. apply checkWin_true; [done|]. intros i Hi.
    apply validated_cell; try done.
    apply emptyCells_complete in Hc; [|done..].
    rewrite Hc. apply not_elem_of_nil.
Qed.

Lemma solutionFits_check (g : GameState) :
  forallb
    (λ i, match charAt (initialBoard g) i with
          | Some v => bool_decide (v = EMPTY)
                      || bool_decide (solution g !! i = Some v)
          | None => true
          end)
    (seq 0 (String.length (initialBoard g))) = true →
  solutionFits g.
Proof.
  rewrite forallb_forall. intros Hall i v Hv Hne.
  specialize (Hall i). rewrite Hv in Hall.
  rewrite orb_true_iff, !bool_decide_eq_true in Hall.
  destruct Hall as [?|?]; [|done|done].
  apply in_seq. apply charAt_lt in Hv. lia.
Qed.

Lemma sampleGame_solutionFits : solutionFits sampleGame.
Proof. apply solutionFits_check. by vm_compute. Qed.

Lemma showHints_frame (picks : list nat) (g : GameState) :
  solution (showHints picks g) = solution g
  ∧ initialBoard (showHints picks g) = initialBoard g.
Proof.
  revert g. induction picks as [|p ps IH]; intros g; [done|].
  change (showHints (p :: ps) g) with (showHints ps (showHint p g)).
  destruct (IH (showHint p g)) as [-> ->].
  by destruct (showHint_frame p g) as (-> & -> & _).
Qed.

Lemma showHints_solutionFits (picks : list nat) (g : GameState) :
  solutionFits g → solutionFits (showHints picks g).
Proof.
  intros Hfits i v. destruct (showHints_frame picks g) as [-> ->].
  apply Hfits.
Qed.

(** The sample after one wrong entry (a 1 at cell 2, where the solution has
    4) and hints for the other 50 blanks: complete, and both checks
    refuse it. *)
Lemma validateBoard_checkWin_witness :
  isComplete (showHints (replicate 50 0) (placeNumber "1" sampleSelected))
    = true
  ∧ hasErrors (showHints (replicate 50 0) (placeNumber "1" sampleSelected))
    = true
  ∧ checkWin (showHints (replicate 50 0) (placeNumber "1" sampleSelected))
    = false.
Proof.
  assert (Hreach : reachable
            (showHints (replicate 50 0) (placeNumber "1" sampleSelected))).
  { apply showHints_reachable, reach_place, sampleSelected_reachable. }
  assert (Hfits : solutionFits
            (showHints (replicate 50 0) (placeNumber "1" sampleSelected))).
  { apply showHints_solutionFits, solutionFits_check. by vm_compute. }
  assert (Herr : hasErrors
            (showHints (replicate 50 0) (placeNumber "1" sampleSelected))
            = true) by by vm_compute.
  split_and!; [by vm_compute | exact Herr |].
  destruct (validateBoard_checkWin _ Hreach Hfits) as [Hwin _].
  destruct (checkWin _); [|done].
  rewrite Hwin in Herr; done.
Defined.

(** X7. Hints solve a game without wrong entries. In a reachable state
    whose solution agrees with the givens and in which validation finds no
    error, at least as many hints as there are empty non-given cells lead
    to a board that [checkWin] accepts: the last of them reports the win. *)
Theorem showHints_solves (picks : list nat) (g : GameState) :
  reachable g → solutionFits g → hasErrors g = false →
  length (emptyCells g) ≤ length picks →
  checkWin (showHints picks g) = true
  ∧ winReport (showHints picks g) = Solved.
Proof.
  intros Hg Hfits Hok Hpicks.
  destruct (reachable_invariants g Hg) as (Hwf & Hkept & _).
  destruct (showHints_board picks g) as [Hnone Hboard];
    [destruct Hwf; lia | by destruct Hwf | done |].
  destruct (reachable_invariants _ (showHints_reachable picks g Hg))
    as (Hwf' & Hkept' & _).
  assert (Hc : isComplete (showHints picks g) = true)
    by by apply emptyCells_complete.
  assert (Hlen : length (board (showHints picks g)) = 81)
    by by destruct Hwf'.
  assert (Hwin : checkWin (showHints picks g) = true).
  { apply checkWin_true; [done|]. intros i Hi.
    destruct (showHints_frame picks g) as [-> _].
    rewrite Hboard. case_bool_decide as Hblank; [done|].
    by apply validated_cell. }
  split; [done|]. unfold winReport. by rewrite Hc, Hwin.
Qed.

Lemma showHints_solves_witness :
  checkWin (showHints (replicate 51 7) sampleGame) = true.
Proof.
  apply (showHints_solves (replicate 51 7) sampleGame);
    [apply sampleGame_reachable | apply sampleGame_solutionFits
    | by vm_compute | by vm_compute].
Defined.

(** X8. A hint neither adds nor removes an error mark: when the solution
    covers the board, [validateBoard] marks the same cells as errors after
    [showHint] as before, and so reports errors after it exactly when it
    did before. *)
Theorem showHint_keeps_errors (pick : nat) (g : GameState) :
  length (board g) ≤ length (solution g) →
  (∀ i, validateCell (showHint pick g) i = Incorrect
        ↔ validateCell g i = Incorrect)
  ∧ hasErrors (showHint pick g) = hasErrors g.
Proof.
  intros Hlen.
  assert (Hcells : ∀ i, validateCell (showHint pick g) i = Incorrect
                        ↔ validateCell g i = Incorrect).
  { intros i. destruct (decide (emptyCells g = [])) as [Hnone|Hne].
    { unfold showHint. by rewrite Hnone. }
    destruct (showHint_effect pick g Hlen Hne)
      as (r & _ & Hb & _ & Hnew & _ & _ & Hother).
    destruct (showHint_frame pick g) as (Hsol & Hib & _).
    rewrite !validateCell_Incorrect. unfold isGiven. rewrite Hsol, Hib.
    destruct (decide (i = r)) as [->|Hir].
    - rewrite Hnew, Hb. split; [by intros (_ & _ & ?) | by intros (? & _)].
    - by rewrite Hother. }
  split; [done|].
  apply eq_true_iff_eq. unfold hasErrors. rewrite !existsb_exists.
  split; intros (i & Hi & Hbad); exists i; (split; [done|]).
  - assert (Hinc : validateCell g i = Incorrect).
    { apply Hcells. by destruct (validateCell (showHint pick g) i). }
    by rewrite Hinc.
  - assert (Hinc : validateCell (showHint pick g) i = Incorrect).
    { apply Hcells. by destruct (validateCell g i). }
    by rewrite Hinc.
Qed.

(** The sample with a wrong 1 at cell 2: still reported after a hint. *)
Lemma showHint_keeps_errors_witness :
  hasErrors (placeNumber "1" sampleSelected) = true
  ∧ hasErrors (showHint 5 (placeNumber "1" sampleSelected)) = true.
Proof.
  assert (Herr : hasErrors (placeNumber "1" sampleSelected) = true)
    by by vm_compute.
  split; [exact Herr|].
  destruct (showHint_keeps_errors 5 (placeNumber "1" sampleSelected))
    as [_ ->]; [by vm_compute | exact Herr].
Defined.

(** ** The number pad *)

Lemma initialCounts_zero (d : string) (n : nat) :
  initialCounts !! d = Some n → n = 0.
Proof.
  unfold initialCounts. simpl.
  repeat (rewrite lookup_insert; case_decide; [by intros [= <-]|]).
  by rewrite lookup_empty.
Qed.

Lemma countValue_lookup (acc : gmap string nat) (value d : string) :
  default 0 (countValue acc value !! d)
  = default 0 (acc !! d)
    + (if bool_decide (value = d ∧ d ≠ EMPTY) then 1 else 0).
Proof.
  unfold countValue. case_bool_decide as Hv.
  - destruct (decide (value = d)) as [->|Hd].
    + rewrite lookup_insert_eq, bool_decide_eq_true_2 by done. done.
    + rewrite lookup_insert_ne, bool_decide_eq_false_2 by tauto. simpl. lia.
  - subst value.
    rewrite bool_decide_eq_false_2; [lia|]. intros [<- ?]. done.
Qed.

Lemma holders_snoc (b : list string) (x d : string) :
  List.filter (λ i, bool_decide ((b ++ [x]) !! i = Some d))
    (seq 0 (length (b ++ [x])))
  = List.filter (λ i, bool_decide (b !! i = Some d)) (seq 0 (length b))
    ++ (if bool_decide (x = d) then [length b] else []).
Proof.
  rewrite length_app. cbn [length].
  rewrite Nat.add_1_r, seq_S, List.filter_app.
  f_equal.
  - apply filter_ext_in. intros i Hi. apply in_seq in Hi.
    by rewrite lookup_app_l by lia.
  - cbn [List.filter Nat.add]. rewrite list_lookup_middle by done.
    repeat case_bool_decide; congruence.
Qed.

(** The count the loop arrives at for [d]: the number of cells holding
    [d], and nothing for the empty marker. *)
Lemma numberCounts_lookup (g : GameState) (d : string) :
  default 0 (numberCounts g !! d)
  = if bool_decide (d = EMPTY) then 0 else length (holders g d).
Proof.
  unfold numberCounts, holders.
  induction (board g) as [|x b IH] using rev_ind.
  - simpl. destruct (initialCounts !! d) as [n|] eqn:Hn; simpl.
    + apply initialCounts_zero in Hn as ->. by case_bool_decide.
    + by case_bool_decide.
  - rewrite foldl_snoc, countValue_lookup, IH, holders_snoc, length_app.
    repeat case_bool_decide; simpl; try lia; tauto.
Qed.

(** X9. The number pad. After [updateNumberButtonStates] the button of a
    number (of one character at most) carries ['completed'] exactly when at
    least nine cells of the board hold that number; the button of the empty
    marker, which is never counted, does not carry it, and the erase button
    is left alone. *)
Theorem buttonState_completed (g : GameState) (number : string) :
  String.length number ≤ 1 →
  (buttonState g number = Some true ↔
     number ≠ ERASE ∧ number ≠ EMPTY ∧ 9 ≤ length (holders g number))
  ∧ (buttonState g number = None ↔ number = ERASE).
Proof.
  intros _. unfold buttonState.
  assert (Hcount : match numberCounts g !! number with
                   | Some n => 9 <=? n
                   | None => false
                   end = (9 <=? default 0 (numberCounts g !! number)))
    by by destruct (numberCounts g !! number).
  rewrite Hcount, numberCounts_lookup.
  case_bool_decide as Herase; split; split; try done.
  - by intros (? & _).
  - case_bool_decide; [done|]. intros Hs. apply (inj Some) in Hs.
    by apply Nat.leb_le in Hs.
  - intros (_ & Hne & Hn). rewrite bool_decide_eq_false_2 by done.
    f_equal. by apply Nat.leb_le.
Qed.

Lemma buttonState_completed_witness :
  buttonState sampleSolved "5" = Some true
  ∧ buttonState sampleGame "5" = Some false
  ∧ buttonState sampleSolved ERASE = None.
Proof.
  split_and!.
  - apply (buttonState_completed sampleSolved "5"); [simpl; lia|].
    split_and!; [discriminate | discriminate | by vm_compute].
  - by vm_compute.
  - by apply (buttonState_completed sampleSolved ERASE); [simpl; lia|].
Defined.

(** ** Conflicts *)

Lemma related_sym (c i : nat) : related c i = related i c.
Proof.
  unfold related.
  by rewrite (Nat.eqb_sym (rowOf i)), (Nat.eqb_sym (colOf i)),
    (Nat.eqb_sym (boxRowOf i)), (Nat.eqb_sym (boxColOf i)).
Qed.

(** A related cell with the same value puts a cell in violation. *)
Lemma violation_intro (g : GameState) (i p : nat) (v : string) :
  board g !! i = Some v → v ≠ EMPTY → p < 81 → p ≠ i →
  related i p = true → board g !! p = Some v →
  hasConstraintViolation g i = true.
Proof.
  intros Hi Hv Hp Hpi Hrel Hpv. unfold hasConstraintViolation.
  rewrite Hi, bool_decide_eq_false_2 by congruence.
  apply existsb_exists. exists p. split; [by apply cells_spec|].
  rewrite !andb_true_iff, negb_true_iff, Nat.eqb_neq, bool_decide_eq_true.
  by split_and!.
Qed.

(** A violation at a cell of the board comes from such a cell. *)
Lemma violation_elim (g : GameState) (i : nat) (v : string) :
  board g !! i = Some v → hasConstraintViolation g i = true →
  v ≠ EMPTY
  ∧ ∃ p, p < 81 ∧ p ≠ i ∧ related i p = true ∧ board g !! p = Some v.
Proof.
  intros Hi. unfold hasConstraintViolation. rewrite Hi.
  case_bool_decide as Hempty; [done|].
  rewrite existsb_exists. intros (p & Hp & Htest).
  rewrite !andb_true_iff, negb_true_iff, Nat.eqb_neq, bool_decide_eq_true
    in Htest.
  destruct Htest as [[Hpi Hrel] Hval]. apply cells_spec in Hp.
  split; [congruence|]. exists p. by split_and!.
Qed.

(** X10. Conflicts come in pairs. When [hasConstraintViolation] flags a
    cell [i] of the grid, it flags a peer of [i] that holds the same value
    as well: the cell that causes the flag is itself in violation. *)
Theorem hasConstraintViolation_pairs (g : GameState) (i : nat) :
  i < 81 → i < length (board g) → hasConstraintViolation g i = true →
  ∃ p, peer i p ∧ board g !! p = board g !! i
       ∧ hasConstraintViolation g p = true.
Proof.
  intros Hi Hlen Hviol.
  destruct (lookup_lt_is_Some_2 (board g) i Hlen) as [v Hv].
  destruct (violation_elim g i v Hv Hviol)
    as (Hne & p & Hp & Hpi & Hrel & Hpv).
  exists p. split_and!; [done.. | congruence |].
  apply (violation_intro g p i v); try done.
  by rewrite related_sym.
Qed.

Lemma hasConstraintViolation_pairs_witness :
  hasConstraintViolation (placeNumber "5" sampleSelected) 2 = true
  ∧ ∃ p, peer 2 p
         ∧ hasConstraintViolation (placeNumber "5" sampleSelected) p = true.
Proof.
  assert (Hviol : hasConstraintViolation (placeNumber "5" sampleSelected) 2
                  = true) by by vm_compute.
  split; [exact Hviol|].
  destruct (hasConstraintViolation_pairs (placeNumber "5" sampleSelected) 2)
    as (p & Hp & _ & Hpv); [lia | vm_compute; lia | exact Hviol |].
  by exists p.
Defined.

Lemma NoDup_holders (g : GameState) (d : string) : NoDup (holders g d).
Proof.
  unfold holders. apply NoDup_ListNoDup, List.NoDup_filter, seq_NoDup.
Qed.

Lemma holders_spec (g : GameState) (d : string) (i : nat) :
  i ∈ holders g d ↔ board g !! i = Some d.
Proof.
  unfold holders.
  rewrite list_elem_of_In, filter_In, in_seq, bool_decide_eq_true.
  split; [tauto|]. intros Hi. split; [|done].
  apply lookup_lt_Some in Hi. lia.
Qed.

(** Cells that hold [d] without a violation lie in different units, for
    any cell-to-unit function with nine values whose equal values mean
    "related". *)
Lemma holders_units (g : GameState) (d : string) (unit : nat → nat) :
  length (board g) = 81 → d ≠ EMPTY →
  (∀ i j, unit i = unit j → related i j = true) →
  (∀ i, i < 81 → unit i < 9) →
  (∀ i, board g !! i = Some d → hasConstraintViolation g i = false) →
  length (holders g d) ≤ 9
  ∧ (9 ≤ length (holders g d) →
     ∀ u, u < 9 → ∃ i, i < 81 ∧ unit i = u ∧ board g !! i = Some d).
Proof.
  intros Hlen Hd Hrel Hrange Hfree.
  assert (Hbound : ∀ i, i ∈ holders g d → i < 81).
  { intros i Hi. apply holders_spec, lookup_lt_Some in Hi. lia. }
  assert (Hnd : NoDup (unit <$> holders g d)).
  { apply NoDup_fmap_2_strong; [|apply NoDup_holders].
    intros i j Hi Hj Hu.
    destruct (decide (i = j)) as [|Hij]; [done|]. exfalso.
    assert (Hv : hasConstraintViolation g i = true).
    { apply holders_spec in Hi, Hj.
      apply (violation_intro g i j d); auto.
      apply lookup_lt_Some in Hj. lia. }
    apply holders_spec in Hi. rewrite (Hfree i Hi) in Hv. done. }
  assert (Hincl : incl (unit <$> holders g d) (seq 0 9)).
  { intros u Hu. apply list_elem_of_In, list_elem_of_fmap in Hu
      as (i & -> & Hi).
    apply in_seq. specialize (Hrange i (Hbound i Hi)). lia. }
  apply NoDup_ListNoDup in Hnd.
  split.
  - pose proof (NoDup_incl_length Hnd Hincl) as Hle.
    by rewrite length_fmap, length_seq in Hle.
  - intros Hnine u Hu.
    assert (Hin : In u (unit <$> holders g d)).
    { apply (@NoDup_length_incl nat (unit <$> holders g d) (seq 0 9) Hnd);
        [|done|apply in_seq; lia].
      by rewrite length_fmap, length_seq. }
    apply list_elem_of_In, list_elem_of_fmap in Hin as (i & -> & Hi).
    exists i. split_and!; [by apply Hbound | done | by apply holders_spec].
Qed.

Lemma buttonState_true (g : GameState) (d : string) :
  buttonState g d = Some true → d ≠ EMPTY ∧ 9 ≤ length (holders g d).
Proof.
  unfold buttonState. case_bool_decide; [done|].
  intros Hs. apply (inj Some) in Hs.
  assert (Hn : 9 ≤ default 0 (numberCounts g !! d)).
  { destruct (numberCounts g !! d) as [n|]; [by apply Nat.leb_le|done]. }
  rewrite numberCounts_lookup in Hn.
  case_bool_decide; [lia|done].
Qed.

(** X11. A completed number is placed. On a board of 81 cells where no
    cell holding the number [d] (one character) is in violation, at most
    nine cells hold [d]; so when the button of [d] is marked completed,
    exactly nine cells hold [d], one in every row and one in every
    column. *)
Theorem completed_number_placed (g : GameState) (d : string) :
  String.length d ≤ 1 → length (board g) = 81 →
  (∀ i, board g !! i = Some d → hasConstraintViolation g i = false) →
  buttonState g d = Some true →
  length (holders g d) = 9
  ∧ (∀ r, r < 9 → ∃ i, i < 81 ∧ rowOf i = r ∧ board g !! i = Some d)
  ∧ (∀ c, c < 9 → ∃ i, i < 81 ∧ colOf i = c ∧ board g !! i = Some d).
Proof.
  intros _ Hlen Hfree Hdone.
  apply buttonState_true in Hdone as [Hd Hnine].
  destruct (holders_units g d rowOf Hlen Hd) as [Hle Hrows]; try done.
  { intros i j Hij. apply related_spec. by left. }
  { intros i Hi. unfold rowOf. apply Nat.Div0.div_lt_upper_bound. lia. }
  destruct (holders_units g d colOf Hlen Hd) as [_ Hcols]; try done.
  { intros i j Hij. apply related_spec. right. by left. }
  { intros i Hi. unfold colOf. apply Nat.mod_upper_bound. lia. }
  split_and!; [lia | by apply Hrows | by apply Hcols].
Qed.

Lemma sampleSolved_no_violation (d : string) (i : nat) :
  board sampleSolved !! i = Some d →
  hasConstraintViolation sampleSolved i = false.
Proof.
  intros Hi.
  assert (Hall : forallb (λ j, negb (hasConstraintViolation sampleSolved j))
                   (seq 0 81) = true) by by vm_compute.
  rewrite forallb_forall in Hall.
  apply negb_true_iff, Hall, in_seq.
  apply lookup_lt_Some in Hi.
  assert (Hlen : length (board sampleSolved) = 81) by by vm_compute.
  lia.
Qed.

Lemma completed_number_placed_witness :
  buttonState sampleSolved "5" = Some true
  ∧ length (holders sampleSolved "5") = 9.
Proof.
  assert (Hdone : buttonState sampleSolved "5" = Some true)
    by by vm_compute.
  split; [exact Hdone|].
  apply (completed_number_placed sampleSolved "5");
    [simpl; lia | by vm_compute | apply sampleSolved_no_violation
    | exact Hdone].
Defined.

(** ** Highlights *)

Lemma filter_length_le {A : Type} (f h : A → bool) (l : list A) :
  (∀ x, f x = true → h x = true) →
  length (List.filter f l) ≤ length (List.filter h l).
Proof.
  intros Himp. induction l as [|x l IH]; simpl; [done|].
  destruct (f x) eqn:Hf.
  - rewrite (Himp x Hf). simpl. lia.
  - destruct (h x); simpl; lia.
Qed.

Lemma peers_count (c : nat) :
  c < 81 →
  length (List.filter (λ i, negb (i =? c) && related c i) cells) = 20.
Proof.
  intros Hc.
  assert (Hall : forallb
            (λ c, length (List.filter (λ i, negb (i =? c) && related c i)
                            cells) =? 20)
            (seq 0 81) = true) by by vm_compute.
  rewrite forallb_forall in Hall.
  apply Nat.eqb_eq, Hall, in_seq. lia.
Qed.

(** X12. Every cell has twenty peers. [highlightRelatedCells] for a cell
    of the grid marks at least twenty cells, and exactly twenty when the
    cell is empty; never the cell itself, and never twice the same
    cell. *)
Theorem highlightRelatedCells_count (g : GameState) (index : nat) :
  index < 81 →
  20 ≤ length (highlightRelatedCells g index)
  ∧ (board g !! index = Some EMPTY →
     length (highlightRelatedCells g index) = 20)
  ∧ NoDup (highlightRelatedCells g index)
  ∧ index ∉ highlightRelatedCells g index.
Proof.
  intros Hindex. unfold highlightRelatedCells. split_and!.
  - rewrite <- (peers_count index Hindex).
    apply filter_length_le. intros i.
    rewrite !andb_true_iff, orb_true_iff. tauto.
  - intros Hempty. rewrite <- (peers_count index Hindex).
    apply (f_equal (@length nat)), filter_ext. intros i.
    rewrite Hempty, bool_decide_eq_true_2 by done.
    cbn [negb andb]. by rewrite orb_false_r.
  - apply NoDup_ListNoDup, List.NoDup_filter, seq_NoDup.
  - rewrite list_elem_of_In, filter_In, Nat.eqb_refl. by intros [_ ?].
Qed.

Lemma highlightRelatedCells_count_witness :
  length (highlightRelatedCells sampleGame 2) = 20
  ∧ length (highlightRelatedCells sampleGame 0) = 22.
Proof.
  split.
  - apply (highlightRelatedCells_count sampleGame 2); [lia | reflexivity].
  - by vm_compute.
Defined.

(** ** Rendering *)

(** X13. What [renderBoard] shows for a cell [i] of a reachable state. A
    given shows the initial board's value; a cell with a note entry shows
    the grid of that entry; any other cell shows its value, flagged when
    [hasConstraintViolation] says so, or nothing when it is empty. So
    every value on the board is displayed and the flag is never put on a
    given or on a cell with notes. *)
Theorem renderCell_reachable (g : GameState) (i : nat) :
  reachable g →
  (isGiven g i = true →
   renderCell g i = GivenCell (charAt (initialBoard g) i))
  ∧ (∀ X, notes g !! i = Some X →
          renderCell g i = NoteCell (renderNotesGrid X))
  ∧ (∀ v, isGiven g i = false → board g !! i = Some v → v ≠ EMPTY →
          renderCell g i = UserCell (Some v) (hasConstraintViolation g i))
  ∧ (isGiven g i = false → notes g !! i = None →
     board g !! i = Some EMPTY → renderCell g i = BlankCell).
Proof.
  intros Hg.
  destruct (reachable_invariants g Hg) as (Hwf & Hkept & Hex).
  assert (Hgiven : isGiven g i = true →
                   board g !! i = charAt (initialBoard g) i
                   ∧ board g !! i ≠ Some EMPTY).
  { intros Hgi.
    destruct (charAt (initialBoard g) i) as [v|] eqn:Hv.
    - assert (Hne : v ≠ EMPTY).
      { intros ->. apply isGiven_false in Hv. congruence. }
      rewrite (Hkept i v Hv Hne). split; congruence.
    - assert (Hnone : board g !! i = None).
      { apply lookup_ge_None. rewrite <- split_lookup in Hv.
        apply lookup_ge_None in Hv. rewrite split_length in Hv.
        destruct Hwf. lia. }
      by rewrite Hnone. }
  unfold renderCell, hasNotes. split_and!.
  - intros Hgi. rewrite Hgi. f_equal. by apply Hgiven.
  - intros X HX. destruct (Hex i X HX) as [Hb Hne].
    destruct (isGiven g i) eqn:Hgi.
    { destruct (Hgiven eq_refl) as [_ Hfilled]. done. }
    rewrite HX. simpl.
    assert (Hsize : (0 <? size X) = true).
    { apply Nat.ltb_lt.
      destruct (size X) eqn:Hs; [|lia].
      apply size_empty_inv in Hs. by unfold_leibniz. }
    by rewrite Hsize.
  - intros v Hgi Hv Hne. rewrite Hgi.
    destruct (notes g !! i) as [X|] eqn:HX.
    { destruct (Hex i X HX) as [Hb _]. congruence. }
    rewrite Hv, bool_decide_eq_true_2; [done|congruence].
  - intros Hgi Hn Hb. rewrite Hgi, Hn, Hb.
    by rewrite bool_decide_eq_false_2 by (intros Hne; by apply Hne).
Qed.

Lemma renderCell_reachable_witness :
  renderCell sampleWithNotes 0 = GivenCell (Some "5")
  ∧ renderCell sampleWithNotes 3
    = NoteCell [None; None; None; Some 4; None; None; Some 7; None; None].
Proof.
  destruct (renderCell_reachable sampleWithNotes 0 sampleWithNotes_reachable)
    as (Hgiven & _).
  destruct (renderCell_reachable sampleWithNotes 3 sampleWithNotes_reachable)
    as (_ & Hnotes & _).
  split.
  - rewrite Hgiven; reflexivity.
  - rewrite (Hnotes {[ "4"; "7" ]}); by vm_compute.
Defined.

(** ** The store across a session *)

Lemma setDifficulty_same (g : GameState) : setDifficulty (difficulty g) g = g.
Proof. by destruct g. Qed.

Lemma loaded_difficulty (item : Storage) (g : GameState) :
  loadGame item = Some g → difficulty g ∈ validDifficulties.
Proof.
  unfold loadGame. repeat case_match; try done.
  intros [= <-]. apply loadDifficulty_listed.
Qed.

Lemma appSave_tracks (g : GameState) :
  reachable g → storeTracks (appSave g).
Proof.
  intros Hg. right. exists (difficulty g). split.
  - by destruct (reachable_wellFormed g Hg).
  - rewrite setDifficulty_same. simpl.
    apply loadGame_saveGame;
      [apply wellFormed_initialBoard|];
      by destruct (reachable_wellFormed g Hg).
Qed.

Lemma finishMove_game (g : GameState) (check : bool) :
  game (finishMove g check) = g.
Proof.
  unfold finishMove, appCheckWin.
  destruct (check && isComplete g); [|done].
  by destruct (checkWin (game (appSave g))).
Qed.

Lemma finishMove_tracks (g : GameState) (check : bool) :
  reachable g → storeTracks (finishMove g check).
Proof.
  intros Hg. unfold finishMove, appCheckWin.
  destruct (check && isComplete g); [|by apply appSave_tracks].
  destruct (checkWin (game (appSave g))); [by left | by apply appSave_tracks].
Qed.

(** In a session the game is a reachable one and the store tracks it. *)
Lemma appReachable_invariants (a : App) :
  appReachable a → reachable (game a) ∧ storeTracks a.
Proof.
  induction 1 as [puzzle sol Hgen
                 |puzzle sol a Hgen Ha [IHg IHs]
                 |puzzle sol a Hgen Ha [IHg IHs]
                 |index a Hindex Ha [IHg IHs]
                 |number a Ha [IHg IHs]
                 |pick a Ha [IHg IHs]
                 |m a Ha [IHg IHs]
                 |d a Hd Ha [IHg IHs]].
  - assert (Hg : reachable (newGame puzzle sol None "medium" false)).
    { apply reach_first; [done|]. apply list_elem_of_In. simpl. auto. }
    split; [done | by apply appSave_tracks].
  - unfold appReload, appConstruct.
    destruct IHs as [Hnone | (d & Hd & Hload)].
    + rewrite Hnone. simpl.
      assert (Hg : reachable (newGame puzzle sol None "medium" false)).
      { apply reach_first; [done|]. apply list_elem_of_In. simpl. auto. }
      split; [done | by apply appSave_tracks].
    + rewrite Hload. simpl. split; [by apply reach_difficulty|].
      right. exists d. split; [done|]. simpl.
      rewrite Hload. by destruct (game a).
  - assert (Hg : reachable (startNewGame puzzle sol (game a)))
      by by apply reach_new.
    split; [done | by apply appSave_tracks].
  - assert (Hg : reachable (selectCell index (game a)).1)
      by by apply reach_select.
    split; [done | by apply appSave_tracks].
  - unfold appPlaceNumber.
    destruct (selectedCell (game a)) as [sel|]; [|done].
    destruct (isGiven (game a) sel); [done|].
    assert (Hg : reachable (placeNumber number (game a)))
      by by apply reach_place.
    rewrite finishMove_game. split; [done | by apply finishMove_tracks].
  - unfold appShowHint.
    destruct (length (emptyCells (game a)) =? 0); [done|].
    assert (Hg : reachable (showHint pick (game a))) by by apply reach_hint.
    rewrite finishMove_game. split; [done | by apply finishMove_tracks].
  - assert (Hg : reachable (setNoteMode m (game a)))
      by by apply reach_noteMode.
    split; [done | by apply appSave_tracks].
  - split; [by apply reach_difficulty|].
    destruct IHs as [Hnone | (d' & Hd' & Hload)]; [by left|].
    right. exists d'. split; [done|]. unfold appSetDifficulty. simpl.
    rewrite Hload. by destruct (game a).
Qed.

(** X14. Reloading the page during a session. If the store is empty (as
    after a win), the new page starts a new game; otherwise it resumes the
    game as it is: the same board, solution, initial board, notes,
    selection and note mode, with a difficulty among the four, which is
    the current one unless it was changed after the last save. *)
Theorem appReload_resumes (puzzle sol : string) (a : App) :
  appReachable a →
  (store a = None →
   game (appReload puzzle sol a) = newGame puzzle sol None "medium" false)
  ∧ (store a ≠ None →
     ∃ d, d ∈ validDifficulties
          ∧ game (appReload puzzle sol a) = setDifficulty d (game a)
          ∧ store (appReload puzzle sol a) = store a).
Proof.
  intros Ha. unfold appReload, appConstruct. split.
  - by intros ->.
  - intros Hsome.
    destruct (appReachable_invariants a Ha) as [_ [Hnone | (d & Hd & Hload)]];
      [done|].
    exists d. by rewrite Hload.
Qed.

Lemma sampleApp_reachable : appReachable sampleApp.
Proof. by apply app_first. Qed.

(** A note is taken, then the difficulty changed: the reload has the note
    and the difficulty of the last save. *)
Lemma appReload_resumes_witness :
  game (appReload samplePuzzle sampleSolution
          (appSetDifficulty "hard"
             (appPlaceNumber "4"
                (appSetNoteMode true (appSelectCell 2 sampleApp)))))
  = setDifficulty "medium"
      (game (appSetDifficulty "hard"
               (appPlaceNumber "4"
                  (appSetNoteMode true (appSelectCell 2 sampleApp))))).
Proof.
  assert (Ha : appReachable
            (appSetDifficulty "hard"
               (appPlaceNumber "4"
                  (appSetNoteMode true (appSelectCell 2 sampleApp))))).
  { apply app_difficulty; [apply list_elem_of_In; simpl; auto|].
    apply app_place, app_noteMode, app_select; [lia|].
    apply sampleApp_reachable. }
  destruct (appReload_resumes samplePuzzle sampleSolution _ Ha)
    as [_ Hresume].
  destruct Hresume as (d & _ & Hgame & _); [discriminate|].
  rewrite Hgame. f_equal.
  apply (f_equal difficulty) in Hgame. simpl in Hgame. rewrite <- Hgame.
  by vm_compute.
Defined.

Lemma appSave_reload (puzzle sol : string) (g : GameState) :
  reachable g → appReload puzzle sol (appSave g) = appSave g.
Proof.
  intros Hg. unfold appReload, appConstruct, appSave. cbn [store].
  rewrite loadGame_saveGame;
    [done | apply wellFormed_initialBoard|];
    by destruct (reachable_wellFormed g Hg).
Qed.

(** X15. Moves that save are resumed exactly. During a session, right
    after a cell was selected, the note mode was switched or a new game was
    started, and after a number-pad input or a hint that did not win the
    game, a reload gives back the page state as it is, difficulty
    included. *)
Theorem saved_moves_resume (puzzle sol : string) (a : App) :
  appReachable a →
  (∀ index, index < 81 →
     appReload puzzle sol (appSelectCell index a) = appSelectCell index a)
  ∧ (∀ m, appReload puzzle sol (appSetNoteMode m a) = appSetNoteMode m a)
  ∧ (∀ p s, generated p s = true →
       appReload puzzle sol (appStartNewGame p s a) = appStartNewGame p s a)
  ∧ (∀ number, store (appPlaceNumber number a) ≠ store a →
       store (appPlaceNumber number a) ≠ None →
       appReload puzzle sol (appPlaceNumber number a)
       = appPlaceNumber number a)
  ∧ (∀ pick, store (appShowHint pick a) ≠ store a →
       store (appShowHint pick a) ≠ None →
       appReload puzzle sol (appShowHint pick a) = appShowHint pick a).
Proof.
  intros Ha. destruct (appReachable_invariants a Ha) as [Hg _].
  assert (Hfinish : ∀ g check,
            reachable g → store (finishMove g check) ≠ None →
            appReload puzzle sol (finishMove g check) = finishMove g check).
  { intros g check Hr. unfold finishMove, appCheckWin.
    destruct (check && isComplete g); [|intros _; by apply appSave_reload].
    destruct (checkWin (game (appSave g)));
      [done | intros _; by apply appSave_reload]. }
  split_and!.
  - intros index Hindex. apply appSave_reload. by apply reach_select.
  - intros m. apply appSave_reload. by apply reach_noteMode.
  - intros p s Hgen. apply appSave_reload. by apply reach_new.
  - intros number. unfold appPlaceNumber.
    destruct (selectedCell (game a)) as [sel|]; [|done].
    destruct (isGiven (game a) sel); [done|].
    intros _. apply Hfinish. by apply reach_place.
  - intros pick. unfold appShowHint.
    destruct (length (emptyCells (game a)) =? 0); [done|].
    intros _. apply Hfinish. by apply reach_hint.
Qed.

Lemma saved_moves_resume_witness :
  appReload samplePuzzle sampleSolution (appSelectCell 2 sampleApp)
  = appSelectCell 2 sampleApp.
Proof.
  destruct (saved_moves_resume samplePuzzle sampleSolution sampleApp
              sampleApp_reachable) as [Hselect _].
  apply Hselect. lia.
Defined.

Lemma appShowHints_reachable (picks : list nat) (a : App) :
  appReachable a → appReachable (appShowHints picks a).
Proof.
  revert a. induction picks as [|p ps IH]; intros a Ha; [done|].
  apply IH. by apply app_hint.
Qed.

(** X16. The winning move. In a session, when the board agrees with the
    solution everywhere but at the selected non-given cell and the page is
    in value mode, the number-pad input of the solution's digit for that
    cell is reported as the win, and it leaves the store empty: a reload
    starts a new game instead of resuming the solved one. *)
Theorem winning_move (puzzle sol : string) (a : App) (i : nat) (d : string) :
  appReachable a →
  selectedCell (game a) = Some i → isGiven (game a) i = false →
  noteMode (game a) = false →
  solution (game a) !! i = Some d → d ≠ ERASE →
  (∀ j, j < 81 → j ≠ i → board (game a) !! j = solution (game a) !! j) →
  placeNumberReport d (game a) = Solved
  ∧ board (game (appPlaceNumber d a)) !! i = Some d
  ∧ store (appPlaceNumber d a) = None
  ∧ game (appReload puzzle sol (appPlaceNumber d a))
    = newGame puzzle sol None "medium" false.
Proof.
  intros Ha Hsel Hgiven Hmode Hd Hdigit Hrest.
  destruct (appReachable_invariants a Ha) as [Hg _].
  destruct (reachable_wellFormed _ Hg) as [Hlen _ Hib Hsolved _].
  assert (Hi : i < 81).
  { apply isGiven_false, charAt_lt in Hgiven. lia. }
  destruct (placeNumber_frame d (game a)) as (Hsol & _ & _ & _ & _ & Hl).
  assert (Hboard : board (placeNumber d (game a))
                   = <[ i := d ]> (board (game a)))
    by by rewrite (placeNumber_value (game a) i d).
  assert (Hagree : ∀ j, j < 81 →
            board (placeNumber d (game a)) !! j
            = solution (placeNumber d (game a)) !! j).
  { intros j Hj. rewrite Hsol, Hboard.
    destruct (decide (j = i)) as [->|Hji].
    - by rewrite list_lookup_insert_eq, Hd by lia.
    - rewrite list_lookup_insert_ne by done. by apply Hrest. }
  assert (Hwin : checkWin (placeNumber d (game a)) = true).
  { apply checkWin_true; [congruence | done]. }
  assert (Hcomplete : isComplete (placeNumber d (game a)) = true).
  { apply solved_isComplete; [congruence | by rewrite Hsol | done]. }
  assert (Hstore : store (appPlaceNumber d a) = None).
  { unfold appPlaceNumber, finishMove, appCheckWin.
    rewrite Hsel, Hgiven, Hmode, Hcomplete. simpl. by rewrite Hwin. }
  split_and!.
  - unfold placeNumberReport, winReport.
    by rewrite Hsel, Hgiven, Hmode, Hcomplete, Hwin.
  - unfold appPlaceNumber. rewrite Hsel, Hgiven, finishMove_game, Hboard.
    apply list_lookup_insert_eq. lia.
  - done.
  - unfold appReload, appConstruct. by rewrite Hstore.
Qed.

Lemma sampleLastMove_reachable : appReachable sampleLastMove.
Proof.
  apply app_select; [lia|].
  apply appShowHints_reachable, sampleApp_reachable.
Qed.

Lemma sampleLastMove_rest (j : nat) :
  j < 81 → j ≠ 78 →
  board (game sampleLastMove) !! j = solution (game sampleLastMove) !! j.
Proof.
  intros Hj Hne.
  assert (Hall : forallb
            (λ j, (j =? 78)
                  || bool_decide (board (game sampleLastMove) !! j
                                  = solution (game sampleLastMove) !! j))
            (seq 0 81) = true) by by vm_compute.
  rewrite forallb_forall in Hall.
  assert (Hin : In j (seq 0 81)) by (apply in_seq; lia).
  apply Hall in Hin. apply orb_true_iff in Hin as [Heq|Heq].
  - by apply Nat.eqb_eq in Heq.
  - by apply bool_decide_eq_true in Heq.
Qed.

Lemma winning_move_witness :
  board (game sampleLastMove) !! 78 = Some EMPTY
  ∧ placeNumberReport "1" (game sampleLastMove) = Solved
  ∧ store (appPlaceNumber "1" sampleLastMove) = None.
Proof.
  split; [by vm_compute|].
  destruct (winning_move samplePuzzle sampleSolution sampleLastMove 78 "1"
              sampleLastMove_reachable)
    as (Hreport & _ & Hstore & _);
    [by vm_compute | by vm_compute | by vm_compute | by vm_compute
    | discriminate | apply sampleLastMove_rest |].
  by split.
Defined.

(** ** What an input touches *)

(** X17. A value-mode input on the selected non-given cell [C] of the
    board writes [C] (the number, or the empty marker for the erase input)
    and deletes the notes of [C]. It changes no other cell of the board
    and no notes of a cell that is not a peer of [C]; the erase input
    changes no other notes at all. *)
Theorem placeNumber_value_touches (g : GameState) (C : nat) (number : string) :
  selectedCell g = Some C → isGiven g C = false → noteMode g = false →
  C < length (board g) →
  board (placeNumber number g) !! C
    = Some (if bool_decide (number = ERASE) then EMPTY else number)
  ∧ notes (placeNumber number g) !! C = None
  ∧ (∀ j, j ≠ C → board (placeNumber number g) !! j = board g !! j)
  ∧ (∀ j, j ≠ C → ¬ peer C j →
          notes (placeNumber number g) !! j = notes g !! j)
  ∧ (number = ERASE →
     ∀ j, j ≠ C → notes (placeNumber number g) !! j = notes g !! j).
Proof.
  intros Hsel Hgiven Hmode HC. unfold placeNumber.
  rewrite Hsel, Hgiven, Hmode.
  assert (Hself : ¬ peer C C) by (intros (_ & ? & _); done).
  case_bool_decide as Herase; simpl; split_and!; try done.
  - by rewrite list_lookup_insert_eq.
  - apply lookup_delete_eq.
  - intros j Hj. by rewrite list_lookup_insert_ne.
  - intros j Hj _. by rewrite lookup_delete_ne.
  - intros _ j Hj. by rewrite lookup_delete_ne.
  - by rewrite list_lookup_insert_eq.
  - rewrite eliminate_not_peer by done. apply lookup_delete_eq.
  - intros j Hj. by rewrite list_lookup_insert_ne.
  - intros j Hj Hpeer. rewrite eliminate_not_peer by done.
    by rewrite lookup_delete_ne.
Qed.

(** A 4 at cell 2 of the sample: the cell takes the value and loses its
    notes; cell 40, which is no peer of cell 2, is left as it is. *)
Lemma placeNumber_value_touches_witness :
  board (placeNumber "4" sampleWithNotes) !! 2 = Some "4"
  ∧ notes (placeNumber "4" sampleWithNotes) !! 2 = None
  ∧ notes (placeNumber "4" sampleWithNotes) !! 40
    = notes sampleWithNotes !! 40.
Proof.
  destruct (placeNumber_value_touches sampleWithNotes 2 "4")
    as (Hb & Hn & _ & Hfar & _);
    [by vm_compute | by vm_compute | by vm_compute | vm_compute; lia |].
  split_and!; [exact Hb | exact Hn |].
  apply Hfar; [lia|]. intros (_ & _ & Hrel). by vm_compute in Hrel.
Defined.

(** X18. A note-mode digit on the selected non-given cell [C] of the
    board changes that cell only: its value becomes the empty marker, so a
    value it held is dropped, and the digit is toggled in its notes (the
    new note set is the old one with [D] added if it was missing and
    removed if it was there). The values and the notes of all other cells
    stay: note mode eliminates nothing. *)
Theorem placeNumber_note_touches (g : GameState) (C : nat) (D : string) :
  selectedCell g = Some C → isGiven g C = false → noteMode g = true →
  D ≠ ERASE → C < length (board g) →
  board (placeNumber D g) !! C = Some EMPTY
  ∧ (∀ x, x ∈ default ∅ (notes (placeNumber D g) !! C) ↔
          (x ≠ D ∧ x ∈ default ∅ (notes g !! C))
          ∨ (x = D ∧ D ∉ default ∅ (notes g !! C)))
  ∧ (∀ j, j ≠ C →
          board (placeNumber D g) !! j = board g !! j
          ∧ notes (placeNumber D g) !! j = notes g !! j).
Proof.
  intros Hsel Hgiven Hmode HD HC.
  rewrite (placeNumber_note g C D) by done. simpl.
  split_and!.
  - by rewrite list_lookup_insert_eq.
  - intros x. rewrite toggleNote_same. cbv zeta.
    set (X := default ∅ (notes g !! C)).
    case_bool_decide as HDX; [case_match|]; simpl.
    + rename select (_ = true) into Hsz. apply size_zero_empty in Hsz.
      split; [by intros ?%not_elem_of_empty|].
      intros [[Hx HxX] | [_ ?]]; [|done].
      exfalso. apply (not_elem_of_empty (C:=gset string) x).
      rewrite <- Hsz, elem_of_difference, elem_of_singleton. done.
    + rewrite elem_of_difference, elem_of_singleton. split.
      * intros [? ?]. by left.
      * intros [[? ?] | [_ ?]]; done.
    + rewrite elem_of_union, elem_of_singleton. split.
      * intros [HxX | ->]; [left | by right].
        split; [|done]. intros ->. done.
      * intros [[_ ?] | [-> _]]; [by left | by right].
  - intros j Hj. by rewrite list_lookup_insert_ne, toggleNote_other.
Qed.

(** Cell 2 of the sample after the value 4: a note 7 in note mode drops
    the 4. *)
Lemma placeNumber_note_touches_witness :
  board (placeNumber "4" sampleWithNotes) !! 2 = Some "4"
  ∧ board (placeNumber "7" (setNoteMode true (placeNumber "4" sampleWithNotes)))
      !! 2 = Some EMPTY.
Proof.
  split; [by vm_compute|].
  apply (placeNumber_note_touches
           (setNoteMode true (placeNumber "4" sampleWithNotes)) 2 "7");
    [by vm_compute | by vm_compute | by vm_compute | discriminate
    | vm_compute; lia].
Defined.

(** ** The earlier revision: notes and values *)

(** X19. In [src/game.js] too, a cell has a note or a value, not both:
    on a board as long as the initial board, [placeNumber] keeps "every
    cell with a note holds the empty marker". *)
Theorem Legacy_placeNumber_exclusive (g : Legacy.GameState) (number : string) :
  String.length (Legacy.initialBoard g) ≤ length (Legacy.board g) →
  (∀ i n, Legacy.notes g !! i = Some n → Legacy.board g !! i = Some EMPTY) →
  ∀ i n, Legacy.notes (Legacy.placeNumber number g) !! i = Some n →
         Legacy.board (Legacy.placeNumber number g) !! i = Some EMPTY.
Proof.
  intros Hlen Hex i n. unfold Legacy.placeNumber.
  destruct (Legacy.selectedCell g) as [sel|]; [|apply Hex].
  destruct (Legacy.isGiven g sel) eqn:Hgiven; [apply Hex|].
  assert (Hsel : sel < length (Legacy.board g)).
  { unfold Legacy.isGiven in Hgiven.
    apply bool_decide_eq_false, dec_stable, charAt_lt in Hgiven. lia. }
  destruct (Legacy.noteMode g); [case_bool_decide|]; simpl.
  - destruct (decide (i = sel)) as [->|Hi].
    + by rewrite lookup_delete_eq.
    + rewrite lookup_delete_ne by done. apply Hex.
  - destruct (decide (i = sel)) as [->|Hi].
    + intros _. by rewrite list_lookup_insert_eq.
    + rewrite lookup_insert_ne, list_lookup_insert_ne by done. apply Hex.
  - destruct (decide (i = sel)) as [->|Hi].
    + by rewrite lookup_delete_eq.
    + rewrite lookup_delete_ne, list_lookup_insert_ne by done. apply Hex.
Qed.

Lemma Legacy_placeNumber_exclusive_witness :
  Legacy.notes (Legacy.placeNumber "4" legacySample) !! 2 = Some "4"
  ∧ Legacy.board (Legacy.placeNumber "4" legacySample) !! 2 = Some EMPTY.
Proof.
  assert (Hnote : Legacy.notes (Legacy.placeNumber "4" legacySample) !! 2
                  = Some "4") by by vm_compute.
  split; [exact Hnote|].
  apply (Legacy_placeNumber_exclusive legacySample "4") with (n := "4");
    [vm_compute; lia | | exact Hnote].
  intros i n Hi. simpl in Hi. by rewrite lookup_empty in Hi.
Defined.
